(** * TravelBlog: session issuing, role-gated post access and post assembly

  A shallow embedding of the travel blog's worker handlers and of the
  post renderer, with the properties of the specification stated over it.

  - [JsSort]        Array.prototype.sort with a comparator
  - [Renderer]      src/components/blog/PostRenderer.tsx
  - [Errors]        the error taxonomy used by the workers
  - [CreateText]    workers/posts/create-text.ts
  - [UserService]   workers/lib/user-service.ts
  - [Login]         the session issuer (workers/auth/login)
  - [Posts]         the role-gated query layer (list-posts, get-post)
  - [Reorder]       the reorder operation (workers/posts/reorder)
  - [JsString]      startsWith, split and trim
  - [CloudflareImages]  the Cloudflare Images helper
  - [NotFoundFunction]  functions/404.js
  - [ManagePosts]   the session token of the manage-posts page
  - [BlogPage]      paging of the post list
  - [PostDetail]    lib/posts-api.ts and the post detail page
  - [Routing]       the route tables of the three workers *)

From stdpp Require Import gmap strings list sorting pretty.
From Stdlib Require Import ZArith Lia Ascii.

Local Open Scope Z_scope.

(** The two roles of the blog: [role: 'reader' | 'contributor']. *)
Inductive Role := reader | contributor.

Global Instance Role_eq_dec : EqDecision Role.
Proof. solve_decision. Defined.

(* ===================================================================== *)
(** ** Array.prototype.sort *)
(* ===================================================================== *)

Module JsSort.
Section with_comparator.
Context {A : Type}.
Variable cmp : A → A → Z.

(** [x] stood before every element of [l] in the array being sorted, so
    it is placed in front of the first element that does not compare
    strictly below it: equal keys keep their original order (the sort
    of ECMAScript 2019 is stable). *)
Fixpoint insert_sorted (x : A) (l : list A) : list A :=
  match l with
  | [] => [x]
  | y :: l' => if cmp x y <=? 0 then x :: y :: l' else y :: insert_sorted x l'
  end.

Fixpoint sort (l : list A) : list A :=
  match l with
  | [] => []
  | x :: l' => insert_sorted x (sort l')
  end.
End with_comparator.

(** The comparator [(a, b) => key(a) - key(b)]. *)
Definition by_key {A : Type} (key : A → Z) (a b : A) : Z := key a - key b.

Definition key_le {A : Type} (key : A → Z) (a b : A) : Prop := key a ≤ key b.
End JsSort.

(* ===================================================================== *)
(** ** src/components/blog/PostRenderer.tsx *)
(* ===================================================================== *)

Module Renderer.
Record Photo := {
  photo_id : string;
  photo_url : string;
  photo_altText : string;
  photo_caption : option string;
  photo_displayOrder : Z }.

Record Video := {
  video_id : string;
  video_url : string;
  video_thumbnailUrl : option string;
  video_caption : option string;
  video_displayOrder : Z }.

Record TextBlock := {
  text_id : string;
  text_content : string;
  text_displayOrder : Z }.

(** The objects held by the three content arrays.  Types are erased at
    run time, so one kind of array cell serves all three collections.
    [displayOrder] is the integer column display_order of the content
    tables. *)
Inductive Item :=
| IPhoto (p : Photo)
| IVideo (v : Video)
| IText (t : TextBlock).

(** [item.displayOrder] *)
Definition displayOrder (i : Item) : Z :=
  match i with
  | IPhoto p => photo_displayOrder p
  | IVideo v => video_displayOrder v
  | IText t => text_displayOrder t
  end.

Record BlogPost := {
  post_id : string;
  post_title : string;
  post_description : option string;
  post_coverImage : option string;
  post_templateId : string;
  post_createdAt : string;
  post_publishedAt : option string }.

(** Arrays are objects on the heap; a [PostContent] holds references. *)
Definition loc := positive.
Abbreviation heap := (gmap loc (list Item)).

Record PostContent := {
  photos : loc;
  videos : loc;
  textBlocks : loc }.

(** Computations over the heap; [None] is a read through a reference
    that no array stands behind. *)
Definition M (X : Type) : Type := heap → option (X * heap).

Definition ret {X} (x : X) : M X := λ σ, Some (x, σ).

Definition bind {X Y} (m : M X) (k : X → M Y) : M Y :=
  λ σ, match m σ with
       | Some (x, σ') => k x σ'
       | None => None
       end.

Notation "'do' x <- m ; k" := (bind m (λ x, k))
  (at level 10, x name, m at level 100, k at level 200).

(** Reading the elements of an array. *)
Definition read (l : loc) : M (list Item) :=
  λ σ, match σ !! l with
       | Some xs => Some (xs, σ)
       | None => None
       end.

(** [[...arr]]: a new array with the elements of [arr]. *)
Definition spread (l : loc) : M loc :=
  λ σ, match σ !! l with
       | Some xs => let l' := fresh (dom σ) in Some (l', <[l' := xs]> σ)
       | None => None
       end.

(** [arr.sort(cmp)]: sorts [arr] in place and returns [arr] itself. *)
Definition sort_in_place (cmp : Item → Item → Z) (l : loc) : M loc :=
  λ σ, match σ !! l with
       | Some xs => Some (l, <[l := JsSort.sort cmp xs]> σ)
       | None => None
       end.

(** [[...arr].sort((a, b) => a.displayOrder - b.displayOrder)] *)
Definition sorted_copy (l : loc) : M loc :=
  do c <- spread l;
  sort_in_place (JsSort.by_key displayOrder) c.

(** [xs.length > 0 && xs.map(x => <div key={x.id}>...</div>)]: one
    element per item, in array order; each rendered element is
    identified with the item it shows. *)
Definition render_section (xs : list Item) : list Item :=
  if (0 <? Z.of_nat (length xs)) then map (λ x, x) xs else [].

(** A template component: renders a post from its content and yields
    the content elements in document order. *)
Definition Template : Type := BlogPost → PostContent → M (list Item).

Definition DefaultTemplate : Template := λ post content,
  do sortedPhotos <- sorted_copy (photos content);
  do sortedVideos <- sorted_copy (videos content);
  do sortedTextBlocks <- sorted_copy (textBlocks content);
  do ps <- read sortedPhotos;
  do vs <- read sortedVideos;
  do ts <- read sortedTextBlocks;
  ret (render_section ps ++ render_section vs ++ render_section ts).

(** [templates] is the registry of template components; the
    components themselves (Template01 .. Template10) are imported
    dynamically and are a parameter here. *)
Definition PostRenderer (templates : gmap string Template) : Template :=
  λ post content,
  do p <- sorted_copy (photos content);
  do v <- sorted_copy (videos content);
  do t <- sorted_copy (textBlocks content);
  let sortedContent := {| photos := p; videos := v; textBlocks := t |} in
  let TemplateComponent := default DefaultTemplate (templates !! post_templateId post) in
  TemplateComponent post sortedContent.

(** What is asked of the registered template components: a template
    may write to the arrays handed to it and allocate new ones, and leaves
    every other array alone. *)
Definition template_frame (T : Template) : Prop :=
  ∀ post content σ out σ',
    T post content σ = Some (out, σ') →
    ∀ l xs, l ≠ photos content → l ≠ videos content → l ≠ textBlocks content →
            σ !! l = Some xs → σ' !! l = Some xs.

(** The reading of "one sequence sorted across the three collections":
    the rendered elements ascend by [displayOrder]. *)
Definition ascending (out : list Item) : Prop :=
  Sorted (JsSort.key_le displayOrder) out.

(** A post with photos at 0 and 2 and one text block at 1. *)
Definition sample_photo (n : Z) : Item :=
  IPhoto {| photo_id := "p"; photo_url := "u"; photo_altText := "a";
            photo_caption := None; photo_displayOrder := n |}.
Definition sample_text (n : Z) : Item :=
  IText {| text_id := "t"; text_content := "c"; text_displayOrder := n |}.
Definition sample_post : BlogPost :=
  {| post_id := "1"; post_title := "T"; post_description := None;
     post_coverImage := None; post_templateId := "none";
     post_createdAt := "2025-11-16"; post_publishedAt := None |}.
Definition sample_content : PostContent :=
  {| photos := 1%positive; videos := 2%positive; textBlocks := 3%positive |}.
Definition sample_heap : heap :=
  <[1%positive := [sample_photo 2; sample_photo 0]]>
  (<[2%positive := []]> (<[3%positive := [sample_text 1]]> ∅)).
End Renderer.

(* ===================================================================== *)
(** ** The error taxonomy *)
(* ===================================================================== *)

Module Errors.
(** Modelled from the spec: workers/lib/errors is not among the sources.
    The error kinds and their HTTP status codes are those of the error
    taxonomy: InvalidInput 400, InvalidCredentials 401, Unauthorized 401,
    Forbidden 403, NotFound 404, ServerError 500. *)
Inductive ErrorKind :=
| InvalidInput
| InvalidCredentials
| Unauthorized
| Forbidden
| NotFound
| ServerFailure.

Definition http_status (k : ErrorKind) : Z :=
  match k with
  | InvalidInput => 400
  | InvalidCredentials => 401
  | Unauthorized => 401
  | Forbidden => 403
  | NotFound => 404
  | ServerFailure => 500
  end.

(** The exceptions a handler can raise: the four error classes that
    create-text.ts imports, and any other thrown value. *)
Inductive AppError :=
| NotFoundError (message : string)
| UnauthorizedError (message : string)
| ValidationError (message : string)
| ServerError (message : string)
| Thrown (message : string).

Definition kind_of (e : AppError) : ErrorKind :=
  match e with
  | NotFoundError _ => NotFound
  | UnauthorizedError _ => Unauthorized
  | ValidationError _ => InvalidInput
  | ServerError _ => ServerFailure
  | Thrown _ => ServerFailure
  end.

Definition status_of (e : AppError) : Z := http_status (kind_of e).
End Errors.

(* ===================================================================== *)
(** ** workers/posts/create-text.ts *)
(* ===================================================================== *)

Module CreateText.
Import Errors.

(** The verified session handed to the handler by [withAuth]. *)
Record SessionPayload := {
  sub : string;
  role : Role }.

(** A value of a JSON request body, as far as the handler looks at it. *)
Inductive jsval :=
| JUndefined
| JNull
| JBool (b : bool)
| JNum (n : Z)
| JStr (s : string).

(** [!v] *)
Definition falsy (v : jsval) : bool :=
  match v with
  | JUndefined | JNull => true
  | JBool b => negb b
  | JNum n => n =? 0
  | JStr s => bool_decide (s = "")
  end.

(** [typeof v !== 'string'] *)
Definition not_a_string (v : jsval) : bool :=
  match v with
  | JStr _ => false
  | _ => true
  end.

(** A [number | undefined] that may also arrive as [null]. *)
Inductive optnum :=
| Undefined
| Null
| Num (n : Z).

(** [v ?? d] *)
Definition coalesce (v : optnum) (d : Z) : optnum :=
  match v with
  | Undefined | Null => Num d
  | Num n => Num n
  end.

(** [v === undefined || v === null] *)
Definition nullish (v : optnum) : bool :=
  match v with
  | Undefined | Null => true
  | Num _ => false
  end.

Record CreateTextRequest := {
  content : jsval;
  displayOrder : optnum }.

Record Params := { postId : option string }.

(** The request: the route parameters that the router may have put on it,
    and what [parseJsonBody] makes of its body. *)
Record Request := {
  request_params : option Params;
  parsed_body : AppError + CreateTextRequest }.

Record PostRow := {
  row_id : string;
  author_id : string;
  updated_at : string }.

Record TextRow := {
  text_row_id : string;
  post_id : string;
  text_row_content : string;
  display_order : Z;
  section_name : string;
  created_at : string }.

Record Db := {
  blog_posts : list PostRow;
  text_content : list TextRow }.

(** [SELECT author_id FROM blog_posts WHERE id = ?] *)
Definition select_post (db : Db) (pid : string) : option PostRow :=
  find (λ r, bool_decide (row_id r = pid)) (blog_posts db).

(** [SELECT MAX(display_order) as max_order FROM text_content WHERE
    post_id = ?]: null when the post has no text block. *)
Definition select_max_order (db : Db) (pid : string) : option Z :=
  foldr (λ r acc, if bool_decide (post_id r = pid)
                  then Some (match acc with
                             | Some m => Z.max (display_order r) m
                             | None => display_order r
                             end)
                  else acc)
        None (text_content db).

(** [INSERT INTO text_content (...) VALUES (...)] *)
Definition insert_text (db : Db) (r : TextRow) : Db :=
  {| blog_posts := blog_posts db; text_content := text_content db ++ [r] |}.

(** [UPDATE blog_posts SET updated_at = ? WHERE id = ?] *)
Definition touch_post (db : Db) (now pid : string) : Db :=
  {| blog_posts :=
       map (λ r, if bool_decide (row_id r = pid)
                 then {| row_id := row_id r; author_id := author_id r; updated_at := now |}
                 else r) (blog_posts db);
     text_content := text_content db |}.

Record Created := {
  textId : string;
  created_content : string;
  created_displayOrder : Z;
  createdAt : string;
  response_status : Z }.

(** The statements that the handler sends to the database. *)
Inductive Statement :=
| SelectAuthor
| SelectMaxOrder
| InsertText
| UpdatePost.

Global Instance Statement_eq_dec : EqDecision Statement.
Proof. solve_decision. Defined.

(** What the database does with each statement: [None] when it runs it,
    [Some message] when it throws an error with that message. *)
Definition Faults : Type := Statement → option string.

Definition working : Faults := λ _, None.

Definition failing_at (st : Statement) (message : string) : Faults :=
  λ s, if bool_decide (s = st) then Some message else None.

(** The body of the [try] block, with the database as it is when the
    block ends or throws.  [uuid] and [now] are what [generateUUID()] and
    [new Date().toISOString()] yield.  The two writes are separate
    statements, not a transaction: a throw of the second leaves the row
    of the first.  The helpers that send nothing to the database
    ([createDatabaseClient], [generateUUID], [successResponse]) are taken
    to return. *)
Definition createText_try (faults : Faults) (request : Request) (user : SessionPayload)
    (db : Db) (params : option Params) (uuid now : string)
    : (AppError + Created) * Db :=
  let routeParams :=
    match request_params request with
    | Some p => Some p
    | None => params
    end in
  match routeParams with
  | None => (inl (Thrown "TypeError"), db)
  | Some rp =>
    match postId rp with
    | None => (inl (NotFoundError "Post not found"), db)
    | Some pid =>
      if bool_decide (pid = "") then (inl (NotFoundError "Post not found"), db) else
      match parsed_body request with
      | inl e => (inl e, db)
      | inr body =>
        if falsy (content body) || not_a_string (content body)
        then (inl (ValidationError "content is required and must be a string"), db) else
        match faults SelectAuthor with
        | Some m => (inl (Thrown m), db)
        | None =>
          match select_post db pid with
          | None => (inl (NotFoundError "Post not found"), db)
          | Some post =>
            if negb (bool_decide (author_id post = sub user))
            then (inl (UnauthorizedError
                         "You do not have permission to add text to this post"), db) else
            let displayOrder0 := coalesce (displayOrder body) 0 in
            let displayOrder1 : AppError + Z :=
              if nullish displayOrder0
              then match faults SelectMaxOrder with
                   | Some m => inl (Thrown m)
                   | None => inr (match select_max_order db pid with
                                  | Some m => m + 1
                                  | None => -1 + 1
                                  end)
                   end
              else inr (match displayOrder0 with
                        | Num n => n
                        | _ => 0
                        end) in
            match displayOrder1 with
            | inl e => (inl e, db)
            | inr displayOrder2 =>
              let text := match content body with JStr s => s | _ => "" end in
              match faults InsertText with
              | Some m => (inl (Thrown m), db)
              | None =>
                let db1 := insert_text db
                             {| text_row_id := uuid; post_id := pid;
                                text_row_content := text;
                                display_order := displayOrder2;
                                section_name := "main"; created_at := now |} in
                match faults UpdatePost with
                | Some m => (inl (Thrown m), db1)
                | None =>
                  let db2 := touch_post db1 now pid in
                  (inr {| textId := uuid; created_content := text;
                          created_displayOrder := displayOrder2; createdAt := now;
                          response_status := 201 |}, db2)
                end
              end
            end
          end
        end
      end
    end
  end.

(** The [catch] block: the three request errors pass, anything else
    becomes a [ServerError]. *)
Definition createText_catch (e : AppError) : AppError :=
  match e with
  | NotFoundError _ | UnauthorizedError _ | ValidationError _ => e
  | _ => ServerError "Failed to create text block"
  end.

(** The handler: its answer and the database it leaves. *)
Definition createText (faults : Faults) (request : Request) (user : SessionPayload)
    (db : Db) (params : option Params) (uuid now : string)
    : (AppError + Created) * Db :=
  match createText_try faults request user db params uuid now with
  | (inl e, db') => (inl (createText_catch e), db')
  | (inr r, db') => (inr r, db')
  end.

(** The three statements that a served request runs all succeed. *)
Definition database_works (faults : Faults) : Prop :=
  faults SelectAuthor = None ∧ faults InsertText = None ∧ faults UpdatePost = None.

(** The capability predicate of the spec. *)
Definition canModify (u : SessionPayload) (p : PostRow) : bool :=
  match role u with
  | contributor => bool_decide (sub u = author_id p)
  | reader => false
  end.

(** A request with a non-empty string as content, for the post [pid]. *)
Definition well_formed (request : Request) (params : option Params)
    (pid text : string) (order : optnum) : Prop :=
  match request_params request with Some p => Some p | None => params end
    = Some {| postId := Some pid |}
  ∧ pid ≠ ""
  ∧ parsed_body request = inr {| content := JStr text; displayOrder := order |}
  ∧ text ≠ "".

(** The row that a served request inserts. *)
Definition created_row (uuid now pid text : string) (order : optnum) : TextRow :=
  {| text_row_id := uuid; post_id := pid; text_row_content := text;
     display_order := match coalesce order 0 with Num n => n | _ => 0 end;
     section_name := "main"; created_at := now |}.

Definition sample_db : Db :=
  {| blog_posts := [ {| row_id := "post-1"; author_id := "alice";
                        updated_at := "2025-11-16T10:00:00.000Z" |} ];
     text_content := [ {| text_row_id := "t-1"; post_id := "post-1";
                          text_row_content := "Hello"; display_order := 4;
                          section_name := "main";
                          created_at := "2025-11-16T10:00:00.000Z" |} ] |}.

Definition sample_request (order : optnum) : Request :=
  {| request_params := Some {| postId := Some "post-1" |};
     parsed_body := inr {| content := JStr "Day two"; displayOrder := order |} |}.

Definition no_permission : string :=
  "You do not have permission to add text to this post".

Definition alice : SessionPayload := {| sub := "alice"; role := contributor |}.
Definition bob : SessionPayload := {| sub := "bob"; role := contributor |}.
End CreateText.

(* ===================================================================== *)
(** ** workers/lib/user-service.ts *)
(* ===================================================================== *)

Module UserService.
Record User := {
  username : string;
  passwordHash : string;
  role : Role;
  createdAt : option string;
  displayName : option string }.

(** [users] is the array loaded from users.json, and [toLowerCase] is
    [String.prototype.toLowerCase]: the built-in is a parameter of the
    lookup, which uses nothing of it but its results. *)
Definition findUserByUsername (toLowerCase : string → string) (users : list User)
    (name : string) : option User :=
  let normalizedUsername := toLowerCase name in
  find (λ u, bool_decide (toLowerCase (username u) = normalizedUsername)) users.

Definition userExists (toLowerCase : string → string) (users : list User)
    (name : string) : bool :=
  bool_decide (findUserByUsername toLowerCase users name ≠ None).

(** Equality of strings up to letter case: one lower-case form. *)
Definition eq_up_to_case (toLowerCase : string → string) (s1 s2 : string) : Prop :=
  toLowerCase s1 = toLowerCase s2.

(** The invariant of the credential store: usernames are unique without
    regard to case. *)
Definition usernames_unique (toLowerCase : string → string) (users : list User) : Prop :=
  NoDup (map (λ u, toLowerCase (username u)) users).

(** Lower-casing of strings of ASCII characters, for the examples: A-Z
    go to a-z. *)
Definition is_upper (c : ascii) : bool :=
  ((65 <=? nat_of_ascii c) && (nat_of_ascii c <=? 90))%nat.

Definition lower_ascii (c : ascii) : ascii :=
  if is_upper c then ascii_of_nat (nat_of_ascii c + 32) else c.

Fixpoint ascii_toLowerCase (s : string) : string :=
  match s with
  | EmptyString => EmptyString
  | String c s' => String (lower_ascii c) (ascii_toLowerCase s')
  end.

Definition sample_users : list User :=
  [ {| username := "leser"; passwordHash := "h1"; role := reader;
       createdAt := None; displayName := None |};
    {| username := "Andreas"; passwordHash := "h2"; role := contributor;
       createdAt := None; displayName := Some "Andreas" |} ].

(** Two users whose names differ only in case. *)
Definition first_bob : User :=
  {| username := "Bob"; passwordHash := "h1"; role := reader;
     createdAt := None; displayName := None |}.
Definition second_bob : User :=
  {| username := "bob"; passwordHash := "h2"; role := contributor;
     createdAt := None; displayName := None |}.
End UserService.

(* ===================================================================== *)
(** ** The session issuer: POST /api/auth/login *)
(* ===================================================================== *)

Module Login.
Import Errors UserService.

Record LoginRequest := {
  req_username : option string;
  req_password : option string;
  rememberMe : option bool }.

Record Token := {
  subject : string;
  token_role : Role;
  issuedAt : Z;
  expiresAt : Z }.

Record Cookie := {
  cookie_value : string;
  HttpOnly : bool;
  Secure : bool;
  SameSite : string;
  MaxAge : Z }.

Record ErrorBody := {
  error : ErrorKind;
  message : string }.

Inductive LoginResponse :=
| LoginOk (status : Z) (user_name : string) (user_role : Role) (expires : Z)
          (token : Token) (cookie : Cookie)
| LoginFailed (status : Z) (body : ErrorBody).

Definition SEVEN_DAYS : Z := 604800.
Definition ONE_DAY : Z := 86400.

Definition generic_message : string := "Invalid username or password".

Definition error_code (k : ErrorKind) : string :=
  match k with
  | InvalidInput => "INVALID_INPUT"
  | InvalidCredentials => "INVALID_CREDENTIALS"
  | Unauthorized => "UNAUTHORIZED"
  | Forbidden => "FORBIDDEN"
  | NotFound => "NOT_FOUND"
  | ServerFailure => "INTERNAL_ERROR"
  end.

Definition quoted (s : string) : string :=
  String "034"%char s +:+ String "034"%char EmptyString.

(** The bytes of an error body: [{success:false, error, message}]. *)
Definition body_bytes (b : ErrorBody) : string :=
  "{" +:+ quoted "success" +:+ ":false," +:+ quoted "error" +:+ ":"
      +:+ quoted (error_code (error b)) +:+ "," +:+ quoted "message" +:+ ":"
      +:+ quoted (message b) +:+ "}".

Definition fail_with (k : ErrorKind) (msg : string) : LoginResponse :=
  LoginFailed (http_status k) {| error := k; message := msg |}.

(** Modelled from the spec: workers/auth/login.ts is not among the
    sources.  The session issuer accepts (username, password, rememberMe);
    a missing username or password is InvalidInput; the user is looked up
    by [findUserByUsername]; an absent user and a mismatching password
    both fail with InvalidCredentials and the one generic message; on
    success the token expires [rememberMe ? 7d : 24h] after it is issued
    and the cookie carries HttpOnly, Secure, SameSite=Strict and that
    duration as Max-Age.  [verify] compares a password with a stored hash
    and [sign] signs a token; [now] is the time of the call in seconds;
    [toLowerCase] is the built-in that the lookup uses. *)
Definition handleLogin (toLowerCase : string → string) (users : list User)
    (verify : string → string → bool) (sign : Token → string) (now : Z)
    (request : LoginRequest) : LoginResponse :=
  match req_username request, req_password request with
  | Some name, Some password =>
    match findUserByUsername toLowerCase users name with
    | None => fail_with InvalidCredentials generic_message
    | Some user =>
      if verify password (passwordHash user) then
        let duration := if default false (rememberMe request)
                        then SEVEN_DAYS else ONE_DAY in
        let token := {| subject := username user; token_role := role user;
                        issuedAt := now; expiresAt := now + duration |} in
        LoginOk 200 (username user) (role user) (expiresAt token) token
                {| cookie_value := sign token; HttpOnly := true; Secure := true;
                   SameSite := "Strict"; MaxAge := duration |}
      else fail_with InvalidCredentials generic_message
    end
  | _, _ => fail_with InvalidInput "Username and password are required"
  end.

(** What a response shows to the client: its status and the bytes of its
    body (for a failure). *)
Definition response_status (r : LoginResponse) : Z :=
  match r with
  | LoginOk st _ _ _ _ _ => st
  | LoginFailed st _ => st
  end.

Definition failure_bytes (r : LoginResponse) : option string :=
  match r with
  | LoginOk _ _ _ _ _ _ => None
  | LoginFailed _ b => Some (body_bytes b)
  end.

(** A password check for the examples: the hash of [p] is [p] with a
    prefix. *)
Definition sample_verify (password hash : string) : bool :=
  bool_decide (hash = "h:" +:+ password).

Definition sample_sign (t : Token) : string := "jwt." +:+ subject t.

Definition sample_store : list User :=
  [ {| username := "leser"; passwordHash := "h:secret"; role := reader;
       createdAt := None; displayName := None |} ].

Definition login_as (name password : string) (remember : option bool) : LoginRequest :=
  {| req_username := Some name; req_password := Some password;
     rememberMe := remember |}.
End Login.

(* ===================================================================== *)
(** ** The role-gated query layer: GET /api/posts, GET /api/posts/:postId *)
(* ===================================================================== *)

Module Posts.
Import Errors.

Inductive Status := draft | published.

Global Instance Status_eq_dec : EqDecision Status.
Proof. solve_decision. Defined.

(** Times are seconds since the epoch. *)
Record BlogPost := {
  id : string;
  slug : string;
  title : string;
  templateId : string;
  authorId : string;
  status : Status;
  createdAt : Z;
  updatedAt : Z;
  publishedAt : option Z }.

Record Caller := {
  callerRole : Role;
  callerId : string }.

Inductive StatusFilter := OnlyPublished | AllStatuses.

Record Filters := {
  filter_status : StatusFilter;
  limit : nat;
  offset : nat }.

Record PostList := {
  posts : list BlogPost;
  total : nat;
  page_limit : nat;
  page_offset : nat }.

(** Which posts a caller may have listed: with [status=published] the
    published ones; with [status=all] a contributor gets the posts they
    authored, drafts and published alike, and a reader the published
    ones. *)
Definition visible (caller : Caller) (f : StatusFilter) (p : BlogPost) : bool :=
  match f with
  | OnlyPublished => bool_decide (status p = published)
  | AllStatuses =>
    match callerRole caller with
    | contributor => bool_decide (authorId p = callerId caller)
    | reader => bool_decide (status p = published)
    end
  end.

(** The ordering key: [publishedAt], or [createdAt] for a draft. *)
Definition sort_key (p : BlogPost) : Z := default (createdAt p) (publishedAt p).

(** Newest first, ties by [id] ascending. *)
Definition newest_first (p q : BlogPost) : Z :=
  if sort_key q <? sort_key p then -1
  else if sort_key p <? sort_key q then 1
  else match String.compare (id p) (id q) with
       | Lt => -1
       | Eq => 0
       | Gt => 1
       end.

(** Modelled from the spec: workers/posts/list-posts.ts is not among the
    sources.  [listPosts] returns the posts visible to the caller under the
    status filter, newest first, cut to the page [offset, offset + limit);
    [total] counts the visible posts. *)
Definition listPosts (store : list BlogPost) (caller : Caller) (f : Filters) : PostList :=
  let shown := filter (λ p, visible caller (filter_status f) p = true) store in
  let ordered := JsSort.sort newest_first shown in
  {| posts := take (limit f) (drop (offset f) ordered);
     total := length shown;
     page_limit := limit f;
     page_offset := offset f |}.

(** [SELECT * FROM blog_posts WHERE id = ? OR slug = ?] *)
Definition lookup_post (store : list BlogPost) (idOrSlug : string) : option BlogPost :=
  find (λ p, bool_decide (id p = idOrSlug) || bool_decide (slug p = idOrSlug)) store.

(** Modelled from the spec: workers/posts/get-post.ts is not among the
    sources.  [getPost] returns the post and its content if the post is
    published or the caller is its author, and fails with NotFound
    otherwise, as it does when there is no such post.  [load] reads the
    three content collections of a post. *)
Definition getPost {Content : Type} (store : list BlogPost) (load : BlogPost → Content)
    (idOrSlug : string) (role : Role) (caller : string)
    : ErrorKind + (BlogPost * Content) :=
  match lookup_post store idOrSlug with
  | None => inl NotFound
  | Some p =>
    if bool_decide (status p = published) || bool_decide (caller = authorId p)
    then inr (p, load p)
    else inl NotFound
  end.

Definition sample_post (i author : string) (st : Status) (t : Z) : BlogPost :=
  {| id := i; slug := "slug-" +:+ i; title := "Title"; templateId := "template-01";
     authorId := author; status := st; createdAt := t; updatedAt := t;
     publishedAt := match st with published => Some t | draft => None end |}.

Definition sample_store : list BlogPost :=
  [ sample_post "a" "alice" published 100;
    sample_post "b" "alice" draft 200;
    sample_post "c" "bob" published 300;
    sample_post "d" "bob" draft 400 ].
End Posts.

(* ===================================================================== *)
(** ** The reorder operation: POST /api/posts/:postId/reorder *)
(* ===================================================================== *)

Module Reorder.
Inductive ContentType := photo | video | text.

Global Instance ContentType_eq_dec : EqDecision ContentType.
Proof. solve_decision. Defined.

(** A content row of any of the three tables. *)
Record ContentRow := {
  content_type : ContentType;
  content_id : string;
  postId : string;
  displayOrder : Z }.

(** An entry of the target ordering: a content id with its type tag. *)
Record Entry := {
  entry_type : ContentType;
  entry_id : string }.

Global Instance Entry_eq_dec : EqDecision Entry.
Proof. solve_decision. Defined.

Definition matches (post : string) (e : Entry) (r : ContentRow) : bool :=
  bool_decide (content_type r = entry_type e)
  && bool_decide (content_id r = entry_id e)
  && bool_decide (postId r = post).

Definition set_order (n : Z) (r : ContentRow) : ContentRow :=
  {| content_type := content_type r; content_id := content_id r;
     postId := postId r; displayOrder := n |}.

(** One item update, [UPDATE ... SET display_order = ? WHERE id = ? AND
    post_id = ?]; it fails when no row of the post carries the id. *)
Definition update_item (post : string) (e : Entry) (n : Z) (rows : list ContentRow)
    : option (list ContentRow) :=
  if existsb (matches post e) rows
  then Some (map (λ r, if matches post e r then set_order n r else r) rows)
  else None.

(** The item updates in the order of the target list; the i-th entry gets
    displayOrder i.  [fault k] tells whether the store fails at the k-th
    update. *)
Fixpoint apply_updates (fault : nat → bool) (post : string) (target : list Entry)
    (k : nat) (rows : list ContentRow) : option (list ContentRow) :=
  match target with
  | [] => Some rows
  | e :: target' =>
    if fault k then None else
    match update_item post e (Z.of_nat k) rows with
    | None => None
    | Some rows' => apply_updates fault post target' (S k) rows'
    end
  end.

Inductive Outcome := Reordered | Failed.

(** Modelled from the spec: workers/posts/reorder.ts is not among the
    sources.  The item updates run as one transaction on the rows of the
    store: it commits when every update went through and rolls back to the
    rows it started from when one fails. *)
Definition reorderContent (fault : nat → bool) (post : string) (target : list Entry)
    (rows : list ContentRow) : Outcome * list ContentRow :=
  match apply_updates fault post target 0 rows with
  | Some rows' => (Reordered, rows')
  | None => (Failed, rows)
  end.

(** The states of the store a reader can see during a reorder: the one
    before the transaction and the one it leaves. *)
Definition observable (fault : nat → bool) (post : string) (target : list Entry)
    (rows : list ContentRow) : list (list ContentRow) :=
  [rows; snd (reorderContent fault post target rows)].

(** The displayOrder stored for an entry. *)
Definition order_of (post : string) (rows : list ContentRow) (e : Entry) : option Z :=
  displayOrder <$> find (matches post e) rows.

Definition no_fault : nat → bool := λ _, false.

Definition fault_at (n : nat) : nat → bool := λ k, bool_decide (k = n).

Definition sample_rows : list ContentRow :=
  [ {| content_type := photo; content_id := "p1"; postId := "post-1"; displayOrder := 0 |};
    {| content_type := photo; content_id := "p2"; postId := "post-1"; displayOrder := 1 |};
    {| content_type := text; content_id := "t1"; postId := "post-1"; displayOrder := 2 |} ].

Definition sample_target : list Entry :=
  [ {| entry_type := text; entry_id := "t1" |};
    {| entry_type := photo; entry_id := "p2" |};
    {| entry_type := photo; entry_id := "p1" |} ].
End Reorder.

(* ===================================================================== *)
(** ** String methods *)
(* ===================================================================== *)

Module JsString.
(** [s.startsWith(p)] *)
Fixpoint startsWith (s p : string) : bool :=
  match p, s with
  | EmptyString, _ => true
  | String a p', String b s' => Ascii.eqb a b && startsWith s' p'
  | String _ _, EmptyString => false
  end.

(** [s.split(sep)] for a separator of one character: the pieces between
    the separators, the empty ones included; never an empty array. *)
Fixpoint split (sep : ascii) (s : string) : list string :=
  match s with
  | EmptyString => [EmptyString]
  | String c s' =>
    if Ascii.eqb c sep then EmptyString :: split sep s'
    else match split sep s' with
         | [] => [String c EmptyString]
         | piece :: pieces => String c piece :: pieces
         end
  end.

(** [parts[parts.length - 1]] *)
Definition last_part (parts : list string) : string := List.last parts EmptyString.

(** Whether a character occurs in a string. *)
Fixpoint contains (c : ascii) (s : string) : bool :=
  match s with
  | EmptyString => false
  | String a s' => Ascii.eqb a c || contains c s'
  end.

(** The white space that [trim] removes, among the characters 0-255. *)
Definition is_space (c : ascii) : bool :=
  let n := nat_of_ascii c in
  ((9 <=? n) && (n <=? 13) || (n =? 32) || (n =? 160))%nat.

Fixpoint trimStart (s : string) : string :=
  match s with
  | EmptyString => EmptyString
  | String c s' => if is_space c then trimStart s' else s
  end.

Fixpoint trimEnd (s : string) : string :=
  match s with
  | EmptyString => EmptyString
  | String c s' =>
    match trimEnd s' with
    | EmptyString => if is_space c then EmptyString else String c EmptyString
    | t => String c t
    end
  end.

(** [s.trim()] *)
Definition trim (s : string) : string := trimEnd (trimStart s).
End JsString.

(* ===================================================================== *)
(** ** The Cloudflare Images helper (CloudflareImagesClient) *)
(* ===================================================================== *)

Module CloudflareImages.
Import JsString.

Record CloudflareImagesConfig := {
  accountId : string;
  accountHash : string;
  apiToken : string }.

Record ImageUploadResult := {
  image_id : string;
  filename : string;
  uploaded : string;
  requireSignedURLs : bool;
  variants : list string }.

(** [ImageVariantUrls]: the own properties of an object from variant
    names to URLs. *)
Abbreviation ImageVariantUrls := (gmap string string).

(** The last segment of a URL: [url.split('/')] and its last part. *)
Definition variant_name (variantUrl : string) : string :=
  last_part (split "/" variantUrl).

(** [urls.public], as a truth value. *)
Definition public_of (urls : ImageVariantUrls) : string := default "" (urls !! "public").

(** [urls[name] = url] on a plain object: the entry is set, except that
    an assignment of a string to [__proto__] goes to the setter of
    [Object.prototype], which ignores it. *)
Definition assign (urls : ImageVariantUrls) (name url : string) : ImageVariantUrls :=
  if bool_decide (name = "__proto__") then urls else <[ name := url ]> urls.

Definition getVariantUrlsFromResult (uploadResult : ImageUploadResult) : ImageVariantUrls :=
  let urls0 : ImageVariantUrls := {[ "public" := "" ]} in
  let urls := foldl (λ (urls : ImageVariantUrls) variantUrl,
                       assign urls (variant_name variantUrl) variantUrl)
                    urls0 (variants uploadResult) in
  if bool_decide (public_of urls = "") && (0 <? Z.of_nat (length (variants uploadResult)))
  then <[ "public" := default "" (head (variants uploadResult)) ]> urls
  else urls.

(** [https://imagedelivery.net/${accountHash}/${imageId}] *)
Definition baseDeliveryUrl (config : CloudflareImagesConfig) (imageId : string) : string :=
  "https://imagedelivery.net/" +:+ accountHash config +:+ "/" +:+ imageId.

Definition getVariantUrls (config : CloudflareImagesConfig) (imageId : string)
    : ImageVariantUrls :=
  {[ "public" := baseDeliveryUrl config imageId +:+ "/public" ]}.

(** A [File | Blob]: its size in bytes, whether it is a [File], and its
    MIME type. *)
Record FileLike := {
  size : Z;
  is_File : bool;
  type : string }.

Record Validation := {
  valid : bool;
  error : option string }.

Definition validTypes : list string :=
  ["image/jpeg"; "image/png"; "image/webp"; "image/gif"; "image/heic"].

(** [maxSizeMB] is [None] when the argument is left out (the default is
    10); megabytes are whole numbers here. *)
Definition validateImage (file : FileLike) (maxSizeMB : option Z) : Validation :=
  let maxSizeMB := default 10 maxSizeMB in
  let maxBytes := maxSizeMB * 1024 * 1024 in
  if maxBytes <? size file
  then {| valid := false;
          error := Some ("File size exceeds " +:+ pretty maxSizeMB +:+ "MB limit") |}
  else if is_File file && negb (bool_decide (type file ∈ validTypes))
  then {| valid := false;
          error := Some "Invalid file type. Supported: JPEG, PNG, WebP, GIF, HEIC" |}
  else {| valid := true; error := None |}.

Definition sample_config : CloudflareImagesConfig :=
  {| accountId := "acc"; accountHash := "hash"; apiToken := "secret" |}.

Definition sample_upload : ImageUploadResult :=
  {| image_id := "img-1"; filename := "a.jpg"; uploaded := "2025-11-16";
     requireSignedURLs := false;
     variants := [ "https://imagedelivery.net/hash/img-1/thumbnail";
                   "https://imagedelivery.net/hash/img-1/public" ] |}.
End CloudflareImages.

(* ===================================================================== *)
(** ** functions/404.js *)
(* ===================================================================== *)

Module NotFoundFunction.
Import JsString.

Record Response := {
  status : Z;
  body : string;
  headers : list (string * string) }.

(** [pathname] is [url.pathname] of the request; [assets] is
    [context.env.ASSETS.fetch] on a path of the site's origin.  A
    [Response] made from a string gets the content type of plain text. *)
Definition onRequest (pathname : string) (assets : string → Response) : Response :=
  if startsWith pathname "/blog/" && negb (bool_decide (pathname = "/blog/"))
  then
    let response := assets "/blog" in
    {| status := 200; body := body response; headers := headers response |}
  else {| status := 404; body := "Not Found";
          headers := [("content-type", "text/plain;charset=UTF-8")] |}.

Definition sample_assets (path : string) : Response :=
  {| status := 304; body := "<html>" +:+ path +:+ "</html>";
     headers := [("Content-Type", "text/html")] |}.
End NotFoundFunction.

(* ===================================================================== *)
(** ** The manage-posts page (ManagePostsPage): its session token *)
(* ===================================================================== *)

Module ManagePosts.
Import JsString.

(** The token read from the cookies: the second piece of the first cookie
    that starts, once trimmed, with [session=]. *)
Definition token_from_cookie (document_cookie : string) : option string :=
  let cookies := split ";" document_cookie in
  match find (λ c, startsWith (trim c) "session=") cookies with
  | Some sessionCookie => split "=" sessionCookie !! 1%nat
  | None => None
  end.

(** [window_defined] tells whether the code runs in a browser;
    [storedToken] is [localStorage.getItem('session_token')]. *)
Definition getSessionToken (window_defined : bool) (storedToken : option string)
    (document_cookie : string) : option string :=
  if negb window_defined then None else
  match storedToken with
  | Some t => if bool_decide (t = "") then token_from_cookie document_cookie else Some t
  | None => token_from_cookie document_cookie
  end.
End ManagePosts.

(* ===================================================================== *)
(** ** src/app/blog/page.tsx: paging of the post list *)
(* ===================================================================== *)

Module BlogPage.
Definition POSTS_PER_PAGE : Z := 12.

(** [(currentPage - 1) * POSTS_PER_PAGE] *)
Definition page_offset (currentPage : Z) : Z := (currentPage - 1) * POSTS_PER_PAGE.

(** [Math.ceil(total / POSTS_PER_PAGE)], on whole numbers. *)
Definition totalPages (total : Z) : Z := - ((- total) / POSTS_PER_PAGE).
End BlogPage.

(* ===================================================================== *)
(** ** lib/posts-api.ts and the post detail page *)
(* ===================================================================== *)

Module PostDetail.
(** What the client reads of the worker's JSON answer: the [error] and
    [message] fields of an error body, and the status of the post. *)
Record Data := {
  data_error : option string;
  data_message : option string;
  post_status : string;
  post_slug : string }.

(** The outcome of [fetch] and [response.json()]: an answer with its
    status and parsed body, or a rejection. *)
Inductive FetchResult :=
| Answer (status : Z) (data : Data)
| Rejected (reason : string).

(** [response.ok] *)
Definition ok (status : Z) : bool := (200 <=? status) && (status <=? 299).

(** [x || d] for a string that may be missing. *)
Definition or_else (x : option string) (d : string) : string :=
  match x with
  | Some s => if bool_decide (s = "") then d else s
  | None => d
  end.

Definition truthy (x : option string) : bool :=
  match x with
  | Some s => negb (bool_decide (s = ""))
  | None => false
  end.

(** [fetchPostBySlug]: the data, or the message of the error thrown. *)
Definition fetchPostBySlug (result : FetchResult) : string + Data :=
  match result with
  | Rejected reason => inl reason
  | Answer status data =>
    if negb (ok status) then
      if status =? 404 then inl "Post not found"
      else inl ("Failed to fetch post: " +:+ pretty status)
    else if truthy (data_error data)
    then inl (or_else (data_message data) "Failed to fetch post")
    else inr data
  end.

(** The state of [PostDetailClient]. *)
Record State := {
  postData : option Data;
  isLoading : bool;
  error : option string;
  pushed : option string }.

Definition initial : State :=
  {| postData := None; isLoading := true; error := None; pushed := None |}.

(** One run of the effect's [loadPost]; [previous] is the post data the
    component holds from an earlier run, which only [setPostData]
    replaces. *)
Definition loadPost (previous : option Data) (result : FetchResult) : State :=
  match fetchPostBySlug result with
  | inr data =>
    if negb (bool_decide (post_status data = "published"))
    then {| postData := previous; isLoading := false; error := None;
            pushed := Some "/blog" |}
    else {| postData := Some data; isLoading := false; error := None; pushed := None |}
  | inl _ =>
    {| postData := previous; isLoading := false;
       error := Some "Failed to load blog post"; pushed := None |}
  end.

(** The runs of the effect one after another, as the slug changes. *)
Definition loadPosts (results : list FetchResult) : State :=
  foldl (λ st result, loadPost (postData st) result) initial results.

(** What the component shows for a state. *)
Inductive View :=
| Spinner
| PostNotFound (message : string)
| Rendered (data : Data).

Definition render (s : State) : View :=
  if isLoading s then Spinner
  else match postData s with
       | Some data =>
         if truthy (error s)
         then PostNotFound (or_else (error s) "The requested blog post could not be found.")
         else Rendered data
       | None =>
         PostNotFound (or_else (error s) "The requested blog post could not be found.")
       end.
End PostDetail.

(* ===================================================================== *)
(** ** The routers of the workers (itty-router tables) *)
(* ===================================================================== *)

Module Routing.
Import JsString.

(** A route path is matched as a whole: literal segments, [:name]
    parameters that stand for one non-empty segment, and any number of
    slashes at the end; the path [*] behind a base matches every pathname
    that starts with the base. *)
Inductive Segment :=
| Lit (s : string)
| Par (name : string).

Inductive Pattern :=
| Path (segments : list Segment)
| Wildcard (base : string).

Record Route (H : Type) := {
  route_method : string;
  route_pattern : Pattern;
  route_handler : H }.

Arguments route_method {H}.
Arguments route_pattern {H}.
Arguments route_handler {H}.

Fixpoint strip_trailing_empty (l : list string) : list string :=
  match l with
  | [] => []
  | x :: l' =>
    match strip_trailing_empty l' with
    | [] => if bool_decide (x = "") then [] else [x]
    | t => x :: t
    end
  end.

(** The segments of a pathname that begins with a slash, without the
    empty ones at the end. *)
Definition path_segments (pathname : string) : option (list string) :=
  match split "/" pathname with
  | "" :: rest => Some (strip_trailing_empty rest)
  | _ => None
  end.

Fixpoint match_segments (pattern : list Segment) (path : list string)
    : option (list (string * string)) :=
  match pattern, path with
  | [], [] => Some []
  | Lit s :: pattern', x :: path' =>
    if bool_decide (s = x) then match_segments pattern' path' else None
  | Par name :: pattern', x :: path' =>
    if bool_decide (x = "") then None
    else (λ params, (name, x) :: params) <$> match_segments pattern' path'
  | _, _ => None
  end.

Definition match_pattern (p : Pattern) (pathname : string)
    : option (list (string * string)) :=
  match p with
  | Path segments =>
    match path_segments pathname with
    | Some path => match_segments segments path
    | None => None
    end
  | Wildcard base => if startsWith pathname base then Some [] else None
  end.

Definition match_route {H} (r : Route H) (method pathname : string)
    : option (list (string * string)) :=
  if bool_decide (route_method r = method) || bool_decide (route_method r = "ALL")
  then match_pattern (route_pattern r) pathname
  else None.

(** [router.handle]: the handler of the first route that matches, with
    the route parameters; [None] when no route matches. *)
Fixpoint handle {H} (routes : list (Route H)) (method pathname : string)
    : option (H * list (string * string)) :=
  match routes with
  | [] => None
  | r :: routes' =>
    match match_route r method pathname with
    | Some params => Some (route_handler r, params)
    | None => handle routes' method pathname
    end
  end.

Definition route {H} (method : string) (p : Pattern) (h : H) : Route H :=
  {| route_method := method; route_pattern := p; route_handler := h |}.

(** workers/posts/index.ts *)
Inductive PostsHandler :=
| createPost | listPosts | getPost | updateMetadata | deletePost | reorderContent
| updatePhoto | deletePhoto | updateVideo | deleteVideo | updateText | deleteText
| postsNotFound.

Definition posts_base : list Segment := [Lit "api"; Lit "posts"].

Definition posts_routes : list (Route PostsHandler) :=
  [ route "POST" (Path (posts_base ++ [Lit "create"])) createPost;
    route "GET" (Path posts_base) listPosts;
    route "GET" (Path (posts_base ++ [Par "postId"])) getPost;
    route "PATCH" (Path (posts_base ++ [Par "postId"])) updateMetadata;
    route "DELETE" (Path (posts_base ++ [Par "postId"])) deletePost;
    route "POST" (Path (posts_base ++ [Par "postId"; Lit "reorder"])) reorderContent;
    route "PUT" (Path (posts_base ++ [Par "postId"; Lit "photos"; Par "photoId"])) updatePhoto;
    route "DELETE" (Path (posts_base ++ [Par "postId"; Lit "photos"; Par "photoId"]))
          deletePhoto;
    route "PUT" (Path (posts_base ++ [Par "postId"; Lit "videos"; Par "videoId"])) updateVideo;
    route "DELETE" (Path (posts_base ++ [Par "postId"; Lit "videos"; Par "videoId"]))
          deleteVideo;
    route "PUT" (Path (posts_base ++ [Par "postId"; Lit "text"; Par "textId"])) updateText;
    route "DELETE" (Path (posts_base ++ [Par "postId"; Lit "text"; Par "textId"])) deleteText;
    route "ALL" (Wildcard "/api/posts") postsNotFound ].

(** workers/auth/index.ts *)
Inductive AuthHandler :=
| health | handleLogin | handleLogout | handleVerify | handleCORSPreflight
| authNotFound.

Definition auth_routes : list (Route AuthHandler) :=
  [ route "GET" (Path [Lit "api"; Lit "auth"; Lit "health"]) health;
    route "POST" (Path [Lit "api"; Lit "auth"; Lit "login"]) handleLogin;
    route "POST" (Path [Lit "api"; Lit "auth"; Lit "logout"]) handleLogout;
    route "GET" (Path [Lit "api"; Lit "auth"; Lit "verify"]) handleVerify;
    route "OPTIONS" (Wildcard "") handleCORSPreflight;
    route "ALL" (Wildcard "") authNotFound ].

(** workers/media-upload/index.ts, in its two versions: routes under a
    base, and full paths with a health check. *)
Inductive MediaHandler :=
| mediaHealth | uploadPhoto | uploadVideo | validateUrl | mediaNotFound.

Definition media_routes_with_base : list (Route MediaHandler) :=
  [ route "POST" (Path [Lit "api"; Lit "media"; Lit "upload-photo"]) uploadPhoto;
    route "POST" (Path [Lit "api"; Lit "media"; Lit "upload-video"]) uploadVideo;
    route "POST" (Path [Lit "api"; Lit "media"; Lit "validate-url"]) validateUrl;
    route "ALL" (Wildcard "/api/media") mediaNotFound ].

Definition media_routes : list (Route MediaHandler) :=
  [ route "GET" (Path [Lit "api"; Lit "media"; Lit "health"]) mediaHealth;
    route "POST" (Path [Lit "api"; Lit "media"; Lit "upload-photo"]) uploadPhoto;
    route "POST" (Path [Lit "api"; Lit "media"; Lit "upload-video"]) uploadVideo;
    route "POST" (Path [Lit "api"; Lit "media"; Lit "validate-url"]) validateUrl;
    route "ALL" (Wildcard "") mediaNotFound ].
End Routing.

(* ===================================================================== *)
(** * Properties *)
(* ===================================================================== *)

Section JsSort_facts.
Import JsSort.
Context {A : Type}.

Lemma insert_sorted_perm (cmp : A → A → Z) x l : insert_sorted cmp x l ≡ₚ x :: l.
Proof.
  induction l as [|y l IH]; simpl; [done|].
  destruct (cmp x y <=? 0); [done|].
  rewrite IH. apply Permutation_swap.
Qed.

Lemma sort_perm (cmp : A → A → Z) l : sort cmp l ≡ₚ l.
Proof.
  induction l as [|x l IH]; simpl; [done|].
  by rewrite insert_sorted_perm, IH.
Qed.

Variable key : A → Z.

Lemma insert_sorted_by_key x l :
  Sorted (key_le key) l → Sorted (key_le key) (insert_sorted (by_key key) x l).
Proof.
  induction 1 as [|y l Hs IH Hhd]; simpl.
  - by repeat constructor.
  - unfold by_key at 1. destruct (Z.leb_spec (key x - key y) 0) as [Hle|Hgt].
    + constructor; [by constructor|]. constructor. unfold key_le. lia.
    + constructor; [done|].
      destruct Hhd as [|z l Hyz]; simpl.
      * constructor. unfold key_le. lia.
      * unfold by_key. destruct (key x - key z <=? 0);
          constructor; unfold key_le in *; lia.
Qed.

Lemma sort_sorted l : Sorted (key_le key) (sort (by_key key) l).
Proof.
  induction l as [|x l IH]; simpl; [constructor|].
  by apply insert_sorted_by_key.
Qed.

(** Sorting an array that is already in order leaves it as it is. *)
Lemma sort_of_sorted l : Sorted (key_le key) l → sort (by_key key) l = l.
Proof.
  induction 1 as [|x l Hs IH Hhd]; simpl; [done|].
  rewrite IH. destruct Hhd as [|y l Hxy]; simpl; [done|].
  unfold by_key. unfold key_le in Hxy.
  destruct (Z.leb_spec (key x - key y) 0); [done|lia].
Qed.

Lemma sort_idempotent l : sort (by_key key) (sort (by_key key) l) = sort (by_key key) l.
Proof. apply sort_of_sorted, sort_sorted. Qed.
End JsSort_facts.

(** Equal keys keep the order they had in the array. *)
Example sort_is_stable :
  JsSort.sort (JsSort.by_key fst) [(2, "a"); (0, "b"); (2, "c"); (1, "d")]
  = [(0, "b"); (1, "d"); (2, "a"); (2, "c")].
Proof. reflexivity. Qed.

Section Renderer_facts.
Import JsSort Renderer.

Abbreviation sorted_items := (sort (by_key displayOrder)).

Lemma render_section_id xs : render_section xs = xs.
Proof. destruct xs; unfold render_section; simpl; [done|]. by rewrite map_id. Qed.

(** A sorted copy lands in a fresh cell and leaves all others alone. *)
Lemma sorted_copy_run l (σ : heap) xs :
  σ !! l = Some xs →
  ∃ l' σ', sorted_copy l σ = Some (l', σ')
           ∧ σ !! l' = None ∧ σ ⊆ σ' ∧ σ' !! l' = Some (sorted_items xs).
Proof.
  intros Hl. set (l' := fresh (dom σ)).
  assert (σ !! l' = None) as Hfresh by apply not_elem_of_dom, is_fresh.
  exists l', (<[l' := sorted_items xs]> σ). split_and!.
  - unfold sorted_copy, bind, spread, sort_in_place. rewrite Hl. simpl.
    fold l'. rewrite lookup_insert_eq. by rewrite insert_insert_eq.
  - done.
  - by apply insert_subseteq.
  - apply lookup_insert_eq.
Qed.

Lemma read_run l (σ : heap) xs : σ !! l = Some xs → read l σ = Some (xs, σ).
Proof. intros Hl. unfold read. by rewrite Hl. Qed.

(** The three copies made by [PostRenderer] (and again by
    [DefaultTemplate]). *)
Lemma three_copies_run c (σ : heap) ps vs ts :
  σ !! photos c = Some ps → σ !! videos c = Some vs → σ !! textBlocks c = Some ts →
  ∃ p v t σ1 σ2 σ3,
    sorted_copy (photos c) σ = Some (p, σ1)
    ∧ sorted_copy (videos c) σ1 = Some (v, σ2)
    ∧ sorted_copy (textBlocks c) σ2 = Some (t, σ3)
    ∧ σ ⊆ σ3
    ∧ σ !! p = None ∧ σ !! v = None ∧ σ !! t = None
    ∧ σ3 !! p = Some (sorted_items ps)
    ∧ σ3 !! v = Some (sorted_items vs)
    ∧ σ3 !! t = Some (sorted_items ts).
Proof.
  intros Hp Hv Ht.
  destruct (sorted_copy_run _ _ _ Hp) as (p & σ1 & R1 & F1 & S1 & L1).
  destruct (sorted_copy_run (videos c) σ1 vs) as (v & σ2 & R2 & F2 & S2 & L2);
    [by eapply lookup_weaken|].
  destruct (sorted_copy_run (textBlocks c) σ2 ts) as (t & σ3 & R3 & F3 & S3 & L3);
    [eapply lookup_weaken; [|exact S2]; by eapply lookup_weaken|].
  exists p, v, t, σ1, σ2, σ3. split_and!; try done.
  - by do 2 (etrans; [eassumption|]).
  - eapply lookup_weaken_None; [exact F2|done].
  - eapply lookup_weaken_None; [exact F3|]. by etrans.
  - eapply lookup_weaken; [exact L1|]. by etrans.
  - by eapply lookup_weaken.
Qed.

Lemma DefaultTemplate_run post c (σ : heap) ps vs ts :
  σ !! photos c = Some ps → σ !! videos c = Some vs → σ !! textBlocks c = Some ts →
  ∃ σ', DefaultTemplate post c σ
        = Some (sorted_items ps ++ sorted_items vs ++ sorted_items ts, σ')
        ∧ σ ⊆ σ'.
Proof.
  intros Hp Hv Ht.
  destruct (three_copies_run c σ ps vs ts Hp Hv Ht)
    as (p & v & t & σ1 & σ2 & σ3 & R1 & R2 & R3 & Hsub & _ & _ & _ & Lp & Lv & Lt).
  exists σ3. split; [|done].
  unfold DefaultTemplate, bind. rewrite R1, R2, R3.
  rewrite (read_run _ _ _ Lp), (read_run _ _ _ Lv), (read_run _ _ _ Lt).
  unfold ret. by rewrite !render_section_id.
Qed.

(** The run of [PostRenderer] when no template is registered under the
    post's [templateId]. *)
Lemma PostRenderer_default_run templates post c (σ : heap) ps vs ts :
  templates !! post_templateId post = None →
  σ !! photos c = Some ps → σ !! videos c = Some vs → σ !! textBlocks c = Some ts →
  ∃ σ', PostRenderer templates post c σ
        = Some (sorted_items ps ++ sorted_items vs ++ sorted_items ts, σ')
        ∧ σ ⊆ σ'.
Proof.
  intros Hnone Hp Hv Ht.
  destruct (three_copies_run c σ ps vs ts Hp Hv Ht)
    as (p & v & t & σ1 & σ2 & σ3 & R1 & R2 & R3 & Hsub & _ & _ & _ & Lp & Lv & Lt).
  destruct (DefaultTemplate_run post {| photos := p; videos := v; textBlocks := t |}
              σ3 _ _ _ Lp Lv Lt) as (σ' & RT & Hsub').
  exists σ'. split; [|by etrans].
  unfold PostRenderer, bind. rewrite R1, R2, R3, Hnone. simpl.
  rewrite RT. by rewrite !sort_idempotent.
Qed.

Lemma bind_inv {X Y} (m : M X) (k : X → M Y) (σ σ'' : heap) y :
  bind m k σ = Some (y, σ'') →
  ∃ x σ', m σ = Some (x, σ') ∧ k x σ' = Some (y, σ'').
Proof.
  unfold bind. destruct (m σ) as [[x σ']|] eqn:E; [|done]. eauto.
Qed.

Lemma sorted_copy_inv l (σ σ' : heap) l' :
  sorted_copy l σ = Some (l', σ') → σ ⊆ σ'.
Proof.
  intros Hrun. destruct (σ !! l) as [xs|] eqn:Hl.
  - destruct (sorted_copy_run l σ xs Hl) as (l1 & σ1 & R & _ & Hsub & _).
    rewrite R in Hrun. by simplify_eq.
  - unfold sorted_copy, bind, spread in Hrun. by rewrite Hl in Hrun.
Qed.

Lemma read_inv l (σ σ' : heap) xs : read l σ = Some (xs, σ') → σ' = σ.
Proof. unfold read. destruct (σ !! l); congruence. Qed.

Lemma DefaultTemplate_grows post c (σ σ' : heap) out :
  DefaultTemplate post c σ = Some (out, σ') → σ ⊆ σ'.
Proof.
  unfold DefaultTemplate. intros Hrun.
  apply bind_inv in Hrun as (p & σ1 & R1 & Hrun).
  apply bind_inv in Hrun as (v & σ2 & R2 & Hrun).
  apply bind_inv in Hrun as (t & σ3 & R3 & Hrun).
  apply bind_inv in Hrun as (xp & σ4 & R4 & Hrun).
  apply bind_inv in Hrun as (xv & σ5 & R5 & Hrun).
  apply bind_inv in Hrun as (xt & σ6 & R6 & Hrun).
  apply read_inv in R4, R5, R6. unfold ret in Hrun. simplify_eq.
  apply sorted_copy_inv in R1, R2, R3. by do 2 (etrans; [eassumption|]).
Qed.

Lemma DefaultTemplate_frame : template_frame DefaultTemplate.
Proof.
  intros post c σ out σ' Hrun l xs _ _ _ Hl.
  eapply lookup_weaken; [exact Hl|]. by eapply DefaultTemplate_grows.
Qed.

Example PostRenderer_sample_keys :
  (map displayOrder ∘ fst) <$> PostRenderer ∅ sample_post sample_content sample_heap
  = Some [0; 2; 1].
Proof. vm_compute. reflexivity. Qed.

(** C1 (amended): when the post's template is the default one, the
    rendered sequence is the photos, then the videos, then the text
    blocks; each of the three runs holds exactly the items of its
    collection, ascending by displayOrder. *)
Theorem PostRenderer_renders_per_type templates post c (σ : heap) ps vs ts :
  templates !! post_templateId post = None →
  σ !! photos c = Some ps → σ !! videos c = Some vs → σ !! textBlocks c = Some ts →
  ∃ sp sv st σ',
    PostRenderer templates post c σ = Some (sp ++ sv ++ st, σ')
    ∧ sp ≡ₚ ps ∧ sv ≡ₚ vs ∧ st ≡ₚ ts
    ∧ ascending sp ∧ ascending sv ∧ ascending st.
Proof.
  intros Hnone Hp Hv Ht.
  destruct (PostRenderer_default_run templates post c σ ps vs ts) as (σ' & R & _);
    try done.
  exists (sorted_items ps), (sorted_items vs), (sorted_items ts), σ'.
  split_and!; [exact R|apply sort_perm..|apply sort_sorted|apply sort_sorted|apply sort_sorted].
Qed.

Lemma PostRenderer_renders_per_type_witness :
  ∃ sp sv st σ',
    PostRenderer ∅ sample_post sample_content sample_heap = Some (sp ++ sv ++ st, σ')
    ∧ sp ≡ₚ [sample_photo 2; sample_photo 0] ∧ sv ≡ₚ [] ∧ st ≡ₚ [sample_text 1]
    ∧ ascending sp ∧ ascending sv ∧ ascending st.
Proof.
  apply (PostRenderer_renders_per_type ∅ sample_post sample_content sample_heap);
    reflexivity.
Defined.

(** C1 as stated fails: with photos at 0 and 2 and a text block at 1 the
    rendered sequence carries the keys 0, 2, 1, which do not ascend. *)
Lemma merged_order_counterexample :
  ∃ out σ',
    PostRenderer ∅ sample_post sample_content sample_heap = Some (out, σ')
    ∧ map displayOrder out = [0; 2; 1]
    ∧ ¬ ascending out.
Proof.
  destruct (PostRenderer_default_run ∅ sample_post sample_content sample_heap
              [sample_photo 2; sample_photo 0] [] [sample_text 1])
    as (σ' & R & _); try reflexivity.
  eexists _, σ'. split; [exact R|]. split; [reflexivity|].
  simpl. intros Hs. unfold ascending in Hs.
  apply Sorted_inv in Hs as [Hs _]. apply Sorted_inv in Hs as [_ Hhd].
  apply HdRel_inv in Hhd. unfold key_le in Hhd. simpl in Hhd. lia.
Qed.

(** C9: rendering a post leaves the three input arrays as they were, for
    every registry whose templates keep to the arrays they are handed;
    with the default template the renderer does produce a result. *)
Theorem PostRenderer_keeps_inputs templates post c (σ : heap) ps vs ts :
  (∀ k T, templates !! k = Some T → template_frame T) →
  σ !! photos c = Some ps → σ !! videos c = Some vs → σ !! textBlocks c = Some ts →
  (templates !! post_templateId post = None →
   is_Some (PostRenderer templates post c σ))
  ∧ (∀ out σ', PostRenderer templates post c σ = Some (out, σ') →
       σ' !! photos c = Some ps ∧ σ' !! videos c = Some vs
       ∧ σ' !! textBlocks c = Some ts)
  ∧ (∃ out σ', DefaultTemplate post c σ = Some (out, σ')
       ∧ σ' !! photos c = Some ps ∧ σ' !! videos c = Some vs
       ∧ σ' !! textBlocks c = Some ts).
Proof.
  intros Hreg Hp Hv Ht. split_and!.
  - intros Hnone.
    destruct (PostRenderer_default_run templates post c σ ps vs ts Hnone Hp Hv Ht)
      as (σ' & R & _).
    rewrite R. by eexists.
  - intros out σ' Hrun.
    destruct (three_copies_run c σ ps vs ts Hp Hv Ht)
      as (p & v & t & σ1 & σ2 & σ3 & R1 & R2 & R3 & Hsub & Fp & Fv & Ft & _).
    unfold PostRenderer, bind in Hrun. rewrite R1, R2, R3 in Hrun. simpl in Hrun.
    assert (template_frame (default DefaultTemplate (templates !! post_templateId post)))
      as Hframe.
    { destruct (templates !! post_templateId post) as [T|] eqn:E; simpl;
        [by eapply Hreg|apply DefaultTemplate_frame]. }
    assert (∀ l xs, σ !! l = Some xs → σ' !! l = Some xs) as Hkeep.
    { intros l xs Hl. eapply (Hframe _ _ _ _ _ Hrun); simpl;
        [congruence..|by eapply lookup_weaken]. }
    auto.
  - destruct (DefaultTemplate_run post c σ ps vs ts Hp Hv Ht) as (σ' & R & Hsub).
    eexists _, σ'. split; [exact R|].
    split_and!; by eapply lookup_weaken.
Qed.

Lemma PostRenderer_keeps_inputs_witness :
  ((∅ : gmap string Template) !! post_templateId sample_post = None →
   is_Some (PostRenderer ∅ sample_post sample_content sample_heap))
  ∧ (∀ out σ', PostRenderer ∅ sample_post sample_content sample_heap = Some (out, σ') →
       σ' !! photos sample_content = Some [sample_photo 2; sample_photo 0]
       ∧ σ' !! videos sample_content = Some []
       ∧ σ' !! textBlocks sample_content = Some [sample_text 1])
  ∧ (∃ out σ', DefaultTemplate sample_post sample_content sample_heap = Some (out, σ')
       ∧ σ' !! photos sample_content = Some [sample_photo 2; sample_photo 0]
       ∧ σ' !! videos sample_content = Some []
       ∧ σ' !! textBlocks sample_content = Some [sample_text 1]).
Proof.
  apply (PostRenderer_keeps_inputs ∅ sample_post sample_content sample_heap);
    [intros k T Hk; by rewrite lookup_empty in Hk|reflexivity..].
Defined.
End Renderer_facts.

Section CreateText_facts.
Import Errors CreateText.

Lemma coalesce_not_nullish v d : nullish (coalesce v d) = false.
Proof. by destruct v. Qed.

Lemma working_database : database_works working.
Proof. by repeat split. Qed.

(** The run of the [try] block up to the ownership test, for a
    well-formed request. *)
Lemma createText_try_well_formed faults request user db params uuid now pid text order :
  well_formed request params pid text order →
  createText_try faults request user db params uuid now =
    match faults SelectAuthor with
    | Some m => (inl (Thrown m), db)
    | None =>
      match select_post db pid with
      | None => (inl (NotFoundError "Post not found"), db)
      | Some post =>
        if negb (bool_decide (author_id post = sub user))
        then (inl (UnauthorizedError no_permission), db)
        else
          match faults InsertText with
          | Some m => (inl (Thrown m), db)
          | None =>
            match faults UpdatePost with
            | Some m => (inl (Thrown m), insert_text db (created_row uuid now pid text order))
            | None =>
              (inr {| textId := uuid; created_content := text;
                      created_displayOrder :=
                        display_order (created_row uuid now pid text order);
                      createdAt := now; response_status := 201 |},
               touch_post (insert_text db (created_row uuid now pid text order)) now pid)
            end
          end
      end
    end.
Proof.
  intros (Hroute & Hpid & Hbody & Htext).
  unfold createText_try. rewrite Hroute. simpl.
  rewrite bool_decide_eq_false_2 by done.
  rewrite Hbody. simpl. rewrite bool_decide_eq_false_2 by done. simpl.
  destruct (faults SelectAuthor); [done|].
  destruct (select_post db pid) as [post|]; [|done].
  destruct (negb _); [done|]. by rewrite coalesce_not_nullish.
Qed.

Lemma createText_success faults request user db params uuid now pid text order post :
  well_formed request params pid text order →
  select_post db pid = Some post →
  author_id post = sub user →
  database_works faults →
  createText faults request user db params uuid now
  = (inr {| textId := uuid; created_content := text;
            created_displayOrder := display_order (created_row uuid now pid text order);
            createdAt := now; response_status := 201 |},
     touch_post (insert_text db (created_row uuid now pid text order)) now pid).
Proof.
  intros Hwf Hpost Hauthor (Hs & Hi & Hu). unfold createText.
  rewrite (createText_try_well_formed _ _ _ _ _ _ _ _ _ _ Hwf).
  rewrite Hs, Hpost, Hi, Hu. by rewrite bool_decide_eq_true_2.
Qed.

(** The text rows after a well-formed request by the author, whatever the
    database does: the old ones, or the old ones and the new row. *)
Lemma createText_rows_after faults request user db params uuid now pid text order post :
  well_formed request params pid text order →
  select_post db pid = Some post →
  author_id post = sub user →
  text_content (snd (createText faults request user db params uuid now))
  = text_content db
  ∨ text_content (snd (createText faults request user db params uuid now))
    = text_content db ++ [created_row uuid now pid text order].
Proof.
  intros Hwf Hpost Hauthor.
  unfold createText. rewrite (createText_try_well_formed _ _ _ _ _ _ _ _ _ _ Hwf).
  rewrite Hpost, bool_decide_eq_true_2 by done. simpl.
  destruct (faults SelectAuthor); [by left|].
  destruct (faults InsertText); [by left|].
  destruct (faults UpdatePost); by right.
Qed.

(** What every run that writes, or answers with success, went through. *)
Lemma createText_write_inv faults request user db params uuid now :
  (snd (createText faults request user db params uuid now) ≠ db
   ∨ ∃ r, fst (createText faults request user db params uuid now) = inr r) →
  ∃ pid text order post,
    well_formed request params pid text order
    ∧ select_post db pid = Some post ∧ author_id post = sub user
    ∧ faults SelectAuthor = None ∧ faults InsertText = None.
Proof.
  unfold createText, createText_try, well_formed.
  destruct (match request_params request with Some p => Some p | None => params end)
    as [[[pid|]]|]; simpl; [|by intros [?|[? ?]]..].
  case_bool_decide as Hpid; [by intros [?|[? ?]]|].
  destruct (parsed_body request) as [e|[c o]]; [by intros [?|[? ?]]|]. simpl.
  destruct c as [| |b|n|text]; simpl; try (by intros [?|[? ?]]).
  { rewrite orb_true_r. by intros [?|[? ?]]. }
  { rewrite orb_true_r. by intros [?|[? ?]]. }
  case_bool_decide as Htext; simpl; [by intros [?|[? ?]]|].
  destruct (faults SelectAuthor) eqn:Hs; [by intros [?|[? ?]]|].
  destruct (select_post db pid) as [post|] eqn:Hpost; [|by intros [?|[? ?]]].
  case_bool_decide as Hauthor; simpl; [|by intros [?|[? ?]]].
  rewrite coalesce_not_nullish.
  destruct (faults InsertText) eqn:Hi; [by intros [?|[? ?]]|].
  intros _. by exists pid, text, o, post.
Qed.

(** An explicit displayOrder is stored as given. *)
Example createText_explicit_displayOrder :
  created_displayOrder <$>
    (match fst (createText working (sample_request (Num 7)) alice sample_db None
                  "uuid-1" "now") with
     | inr r => Some r
     | inl _ => None
     end) = Some 7.
Proof. reflexivity. Qed.

(** A request without content is a validation error. *)
Example createText_missing_content :
  createText working
             {| request_params := Some {| postId := Some "post-1" |};
                parsed_body := inr {| content := JUndefined; displayOrder := Undefined |} |}
             alice sample_db None "uuid-1" "now"
  = (inl (ValidationError "content is required and must be a string"), sample_db).
Proof. reflexivity. Qed.

(** When the UPDATE throws, the answer is a ServerError and the row that
    the INSERT wrote stays. *)
Example createText_failing_update :
  createText (failing_at UpdatePost "D1_ERROR") (sample_request Undefined) alice
             sample_db None "uuid-1" "now"
  = (inl (ServerError "Failed to create text block"),
     insert_text sample_db (created_row "uuid-1" "now" "post-1" "Day two" Undefined)).
Proof. reflexivity. Qed.

(** C2 (amended): the handler tests authorship, and only authorship,
    before it writes.  A request that names an existing post and carries a
    non-empty string as content fails, when it comes from a user who is
    not the author of the post, with UnauthorizedError (the Unauthorized
    error kind, not Forbidden) and with the database as it was; when the
    lookup of the post throws it fails with ServerError, also with the
    database as it was.  The database is changed only by a well-formed
    request from the author of the post it names, and the role of the
    user makes no difference to the answer or to the database. *)
Theorem createText_refuses_other_users faults request user db params uuid now :
  (∀ pid text order post,
     well_formed request params pid text order →
     select_post db pid = Some post →
     author_id post ≠ sub user →
     ∃ e, createText faults request user db params uuid now = (inl e, db)
          ∧ e = match faults SelectAuthor with
                | None => UnauthorizedError no_permission
                | Some _ => ServerError "Failed to create text block"
                end
          ∧ kind_of e ≠ Forbidden
          ∧ (faults SelectAuthor = None → kind_of e = Unauthorized))
  ∧ (snd (createText faults request user db params uuid now) ≠ db →
     ∃ pid text order post,
       well_formed request params pid text order
       ∧ select_post db pid = Some post ∧ author_id post = sub user)
  ∧ (∀ role',
       createText faults request {| sub := sub user; role := role' |} db params uuid now
       = createText faults request user db params uuid now).
Proof.
  split_and!.
  - intros pid text order post Hwf Hpost Hne.
    unfold createText. rewrite (createText_try_well_formed _ _ _ _ _ _ _ _ _ _ Hwf).
    rewrite Hpost, bool_decide_eq_false_2 by done. simpl.
    destruct (faults SelectAuthor) as [m|]; simpl; eexists; by split_and!.
  - intros Hchanged.
    destruct (createText_write_inv faults request user db params uuid now)
      as (pid & text & order & post & Hwf & Hpost & Hauthor & _); [by left|].
    by exists pid, text, order, post.
  - intros role'. reflexivity.
Qed.

Lemma createText_refuses_other_users_witness :
  ∃ e, createText working (sample_request Undefined) bob sample_db None "uuid-1" "now"
       = (inl e, sample_db)
       ∧ e = match working SelectAuthor with
             | None => UnauthorizedError no_permission
             | Some _ => ServerError "Failed to create text block"
             end
       ∧ kind_of e ≠ Forbidden
       ∧ (working SelectAuthor = None → kind_of e = Unauthorized).
Proof.
  eapply (proj1 (createText_refuses_other_users working (sample_request Undefined) bob
                   sample_db None "uuid-1" "now")).
  - repeat split; done.
  - reflexivity.
  - done.
Defined.

(** C2 as stated fails: bob, a contributor who is not the author of
    post-1, is turned away with UnauthorizedError, which is of the
    Unauthorized kind and not of the Forbidden kind. *)
Lemma forbidden_counterexample :
  canModify bob {| row_id := "post-1"; author_id := "alice";
                   updated_at := "2025-11-16T10:00:00.000Z" |} = false
  ∧ createText working (sample_request Undefined) bob sample_db None "uuid-1" "now"
    = (inl (UnauthorizedError no_permission), sample_db)
  ∧ kind_of (UnauthorizedError no_permission) = Unauthorized
  ∧ kind_of (UnauthorizedError no_permission) ≠ Forbidden.
Proof. split_and!; [reflexivity|reflexivity|reflexivity|done]. Qed.

(** C10: a well-formed request by the author that leaves displayOrder
    out (undefined or null) stores the text block with display_order 0 and
    answers 201 with displayOrder 0, whatever text blocks the post already
    has; the value tested by the fallback is never undefined or null, so
    the query for the largest display_order is never sent, and whatever
    the database does, a row that gets written carries display_order 0. *)
Theorem createText_omitted_displayOrder faults request user db params uuid now
    pid text order post :
  well_formed request params pid text order →
  nullish order = true →
  select_post db pid = Some post →
  author_id post = sub user →
  (∀ v, nullish (coalesce v 0) = false)
  ∧ (database_works faults →
     ∃ db',
       createText faults request user db params uuid now
         = (inr {| textId := uuid; created_content := text; created_displayOrder := 0;
                   createdAt := now; response_status := 201 |}, db')
       ∧ text_content db'
         = text_content db ++
             [ {| text_row_id := uuid; post_id := pid; text_row_content := text;
                  display_order := 0; section_name := "main"; created_at := now |} ])
  ∧ (text_content (snd (createText faults request user db params uuid now))
     = text_content db
     ∨ text_content (snd (createText faults request user db params uuid now))
       = text_content db ++
           [ {| text_row_id := uuid; post_id := pid; text_row_content := text;
                display_order := 0; section_name := "main"; created_at := now |} ]).
Proof.
  intros Hwf Hnull Hpost Hauthor. split; [intros v; apply coalesce_not_nullish|].
  assert (created_row uuid now pid text order
          = {| text_row_id := uuid; post_id := pid; text_row_content := text;
               display_order := 0; section_name := "main"; created_at := now |}) as Hrow
    by (by destruct order).
  split.
  - intros Hworks.
    rewrite (createText_success _ _ _ _ _ _ _ _ _ _ _ Hwf Hpost Hauthor Hworks).
    rewrite Hrow. simpl. eexists. split; reflexivity.
  - rewrite <- Hrow. by eapply createText_rows_after.
Qed.

Lemma createText_omitted_displayOrder_witness :
  (∀ v, nullish (coalesce v 0) = false)
  ∧ (database_works working →
     ∃ db',
       createText working (sample_request Undefined) alice sample_db None "uuid-1" "now"
         = (inr {| textId := "uuid-1"; created_content := "Day two";
                   created_displayOrder := 0; createdAt := "now";
                   response_status := 201 |}, db')
       ∧ text_content db'
         = text_content sample_db ++
             [ {| text_row_id := "uuid-1"; post_id := "post-1";
                  text_row_content := "Day two"; display_order := 0;
                  section_name := "main"; created_at := "now" |} ])
  ∧ (text_content (snd (createText working (sample_request Undefined) alice sample_db
                          None "uuid-1" "now"))
     = text_content sample_db
     ∨ text_content (snd (createText working (sample_request Undefined) alice sample_db
                            None "uuid-1" "now"))
       = text_content sample_db ++
           [ {| text_row_id := "uuid-1"; post_id := "post-1";
                text_row_content := "Day two"; display_order := 0;
                section_name := "main"; created_at := "now" |} ]).
Proof.
  apply (createText_omitted_displayOrder working (sample_request Undefined) alice
           sample_db None "uuid-1" "now" "post-1" "Day two" Undefined
           {| row_id := "post-1"; author_id := "alice";
              updated_at := "2025-11-16T10:00:00.000Z" |}).
  - repeat split; done.
  - reflexivity.
  - reflexivity.
  - reflexivity.
Defined.
End CreateText_facts.

Section UserService_facts.
Import UserService.

Lemma lower_ascii_idempotent c : lower_ascii (lower_ascii c) = lower_ascii c.
Proof. destruct c as [[] [] [] [] [] [] [] []]; reflexivity. Qed.

Lemma ascii_toLowerCase_idempotent s :
  ascii_toLowerCase (ascii_toLowerCase s) = ascii_toLowerCase s.
Proof.
  induction s as [|c s IH]; simpl; [done|].
  by rewrite lower_ascii_idempotent, IH.
Qed.

(** [Array.prototype.find]: the first element that passes. *)
Lemma find_first {A} (P : A → bool) (l : list A) (x : A) :
  find P l = Some x
  ↔ ∃ before after, l = before ++ x :: after ∧ P x = true
                    ∧ ∀ w, w ∈ before → P w = false.
Proof.
  split.
  - induction l as [|y l IH]; simpl; [done|].
    destruct (P y) eqn:Hy.
    + intros [= ->]. exists [], l. split_and!; [done..|]. by intros w ?%elem_of_nil.
    + intros H. destruct (IH H) as (before & after & -> & Hx & Hb).
      exists (y :: before), after. split_and!; [done..|].
      intros w [->|Hw]%elem_of_cons; auto.
  - intros (before & after & -> & Hx & Hb).
    induction before as [|y before IH]; simpl; [by rewrite Hx|].
    rewrite Hb by (by left). apply IH. intros w Hw. apply Hb. by right.
Qed.

Lemma find_none {A} (P : A → bool) (l : list A) :
  find P l = None ↔ ∀ w, w ∈ l → P w = false.
Proof.
  induction l as [|y l IH]; simpl.
  - split; [by intros _ w ?%elem_of_nil|done].
  - destruct (P y) eqn:Hy.
    + split; [done|]. intros H. rewrite H in Hy; [done|by left].
    + rewrite IH. split.
      * intros H w [->|Hw]%elem_of_cons; auto.
      * intros H w Hw. apply H. by right.
Qed.

(** In a store with unique keys the first match is the only one. *)
Lemma find_unique_key {A} (key : A → string) (l : list A) (x : A) :
  NoDup (map key l) → In x l →
  find (λ y, bool_decide (key y = key x)) l = Some x.
Proof.
  induction l as [|y l IH]; simpl; [done|].
  intros Hnd Hin. apply NoDup_cons in Hnd as [Hy Hnd].
  case_bool_decide as Hk.
  - destruct Hin as [->|Hin]; [done|].
    exfalso. apply Hy. rewrite Hk. apply list_elem_of_In, in_map, Hin.
  - destruct Hin as [->|Hin]; [done|]. by apply IH.
Qed.

Section with_toLowerCase.
Variable toLowerCase : string → string.

Lemma user_matches_iff (u : User) s :
  bool_decide (toLowerCase (username u) = toLowerCase s) = true
  ↔ eq_up_to_case toLowerCase s (username u).
Proof. unfold eq_up_to_case. rewrite bool_decide_eq_true. split; congruence. Qed.

Lemma user_matches_false_iff (u : User) s :
  bool_decide (toLowerCase (username u) = toLowerCase s) = false
  ↔ ¬ eq_up_to_case toLowerCase s (username u).
Proof. rewrite <- user_matches_iff. by destruct (bool_decide _). Qed.

Lemma lookup_some_iff (users : list User) s u :
  findUserByUsername toLowerCase users s = Some u
  ↔ ∃ before after, users = before ++ u :: after
                    ∧ eq_up_to_case toLowerCase s (username u)
                    ∧ ∀ w, w ∈ before → ¬ eq_up_to_case toLowerCase s (username w).
Proof.
  unfold findUserByUsername. rewrite find_first.
  split; intros (before & after & -> & Hu & Hb); exists before, after;
    (split_and!; [done|by apply user_matches_iff|]);
    intros w Hw; by apply user_matches_false_iff, Hb.
Qed.

Lemma lookup_none_iff (users : list User) s :
  findUserByUsername toLowerCase users s = None
  ↔ ∀ w, w ∈ users → ¬ eq_up_to_case toLowerCase s (username w).
Proof.
  unfold findUserByUsername. rewrite find_none.
  split; intros H w Hw; by apply user_matches_false_iff, H.
Qed.

(** C8 (amended): for a lower-casing that leaves lower-case strings as
    they are, the lookup does not depend on the case of the name asked
    for; and for every stored user and every spelling of that user's name
    the lookup returns the first stored user with that name up to case,
    who is the user in question whenever the usernames of the store are
    unique without regard to case. *)
Theorem findUserByUsername_case_insensitive (users : list User) :
  (∀ s, toLowerCase (toLowerCase s) = toLowerCase s) →
  (∀ s, findUserByUsername toLowerCase users s
        = findUserByUsername toLowerCase users (toLowerCase s))
  ∧ (∀ u s, In u users → eq_up_to_case toLowerCase s (username u) →
       ∃ first before after,
         findUserByUsername toLowerCase users s = Some first
         ∧ users = before ++ first :: after
         ∧ eq_up_to_case toLowerCase (username first) (username u)
         ∧ (∀ w, w ∈ before → ¬ eq_up_to_case toLowerCase (username w) (username u))
         ∧ (usernames_unique toLowerCase users → first = u)).
Proof.
  intros Hidem. split.
  - intros s. unfold findUserByUsername. by rewrite Hidem.
  - intros u s Hin Hcase.
    destruct (findUserByUsername toLowerCase users s) as [first|] eqn:Hfind.
    + pose proof Hfind as Hfirst.
      apply lookup_some_iff in Hfirst as (before & after & Husers & Hf & Hb).
      exists first, before, after. unfold eq_up_to_case in *.
      split_and!; [done|done|congruence| |].
      * intros w Hw Hwu. apply (Hb w Hw). congruence.
      * intros Huniq. unfold findUserByUsername in Hfind. rewrite Hcase in Hfind.
        rewrite (find_unique_key (λ u, toLowerCase (username u))) in Hfind by done.
        by simplify_eq.
    + rewrite lookup_none_iff in Hfind. destruct (Hfind u); [|done].
      by apply list_elem_of_In.
Qed.
End with_toLowerCase.

Example findUserByUsername_sample :
  username <$> findUserByUsername ascii_toLowerCase sample_users "LESER" = Some "leser"
  ∧ findUserByUsername ascii_toLowerCase sample_users "nobody" = None.
Proof. split; reflexivity. Qed.

Lemma findUserByUsername_case_insensitive_witness :
  (∀ s, findUserByUsername ascii_toLowerCase sample_users s
        = findUserByUsername ascii_toLowerCase sample_users (ascii_toLowerCase s))
  ∧ (∀ u s, In u sample_users → eq_up_to_case ascii_toLowerCase s (username u) →
       ∃ first before after,
         findUserByUsername ascii_toLowerCase sample_users s = Some first
         ∧ sample_users = before ++ first :: after
         ∧ eq_up_to_case ascii_toLowerCase (username first) (username u)
         ∧ (∀ w, w ∈ before →
                 ¬ eq_up_to_case ascii_toLowerCase (username w) (username u))
         ∧ (usernames_unique ascii_toLowerCase sample_users → first = u)).
Proof.
  apply (findUserByUsername_case_insensitive ascii_toLowerCase sample_users).
  apply ascii_toLowerCase_idempotent.
Defined.

(** C8 as stated fails: of two stored users whose names differ only in
    case, the second is stored and is asked for by its exact name, and the
    lookup returns the first. *)
Lemma findUserByUsername_shadowing :
  In second_bob [first_bob; second_bob]
  ∧ eq_up_to_case ascii_toLowerCase "bob" (username second_bob)
  ∧ findUserByUsername ascii_toLowerCase [first_bob; second_bob] "bob" = Some first_bob
  ∧ findUserByUsername ascii_toLowerCase [first_bob; second_bob] "bob" ≠ Some second_bob.
Proof. split_and!; [simpl; auto|reflexivity|reflexivity|discriminate]. Qed.
End UserService_facts.

Section Login_facts.
Import Errors UserService Login.
Variable toLowerCase : string → string.
Variable users : list User.
Variable verify : string → string → bool.
Variable sign : Token → string.
Variable now : Z.

Lemma handleLogin_unknown_user name password remember :
  findUserByUsername toLowerCase users name = None →
  handleLogin toLowerCase users verify sign now (login_as name password remember)
  = fail_with InvalidCredentials generic_message.
Proof.
  intros Hfind. unfold handleLogin, login_as. simpl. by rewrite Hfind.
Qed.

Lemma handleLogin_wrong_password name password remember user :
  findUserByUsername toLowerCase users name = Some user →
  verify password (passwordHash user) = false →
  handleLogin toLowerCase users verify sign now (login_as name password remember)
  = fail_with InvalidCredentials generic_message.
Proof.
  intros Hfind Hv. unfold handleLogin, login_as. simpl. by rewrite Hfind, Hv.
Qed.

Example handleLogin_missing_password :
  handleLogin ascii_toLowerCase sample_store sample_verify sample_sign 0
    {| req_username := Some "leser"; req_password := None; rememberMe := None |}
  = LoginFailed 400 {| error := InvalidInput;
                       message := "Username and password are required" |}.
Proof. reflexivity. Qed.

(** C5: a login for a name that is not in the store and a login with a
    stored name and a password that does not match get the same answer:
    status 401, kind InvalidCredentials, the generic message, and the same
    bytes in the body. *)
Theorem login_failures_indistinguishable name1 password1 remember1
    name2 password2 remember2 user :
  findUserByUsername toLowerCase users name1 = None →
  findUserByUsername toLowerCase users name2 = Some user →
  verify password2 (passwordHash user) = false →
  let r1 := handleLogin toLowerCase users verify sign now (login_as name1 password1 remember1) in
  let r2 := handleLogin toLowerCase users verify sign now (login_as name2 password2 remember2) in
  r1 = r2
  ∧ response_status r1 = 401 ∧ response_status r2 = 401
  ∧ failure_bytes r1 = failure_bytes r2
  ∧ r1 = LoginFailed 401 {| error := InvalidCredentials; message := generic_message |}.
Proof.
  intros Hnone Hsome Hv. simpl.
  rewrite (handleLogin_unknown_user _ _ _ Hnone).
  rewrite (handleLogin_wrong_password _ _ _ _ Hsome Hv).
  by split_and!.
Qed.

(** C6: a login with a stored name and its password succeeds; the token
    lives for exactly 604800 seconds with rememberMe and 86400 seconds
    without, and the cookie's Max-Age is that same number. *)
Theorem login_session_lifetime name password remember user :
  findUserByUsername toLowerCase users name = Some user →
  verify password (passwordHash user) = true →
  ∃ token cookie,
    handleLogin toLowerCase users verify sign now (login_as name password remember)
    = LoginOk 200 (username user) (role user) (expiresAt token) token cookie
    ∧ issuedAt token = now
    ∧ expiresAt token - issuedAt token
      = (if default false remember then 604800 else 86400)
    ∧ MaxAge cookie = expiresAt token - issuedAt token
    ∧ HttpOnly cookie = true ∧ Secure cookie = true ∧ SameSite cookie = "Strict".
Proof.
  intros Hfind Hv. unfold handleLogin, login_as. simpl. rewrite Hfind, Hv.
  set (duration := if default false remember then SEVEN_DAYS else ONE_DAY).
  set (token := {| subject := username user; token_role := role user;
                   issuedAt := now; expiresAt := now + duration |}).
  exists token, {| cookie_value := sign token; HttpOnly := true; Secure := true;
                   SameSite := "Strict"; MaxAge := duration |}.
  split; [reflexivity|]. simpl. subst duration.
  unfold SEVEN_DAYS, ONE_DAY. destruct (default false remember); split_and!; try done; lia.
Qed.
End Login_facts.

Lemma login_failures_indistinguishable_witness :
  let r1 := Login.handleLogin UserService.ascii_toLowerCase Login.sample_store Login.sample_verify Login.sample_sign
              1763300000 (Login.login_as "nobody" "secret" None) in
  let r2 := Login.handleLogin UserService.ascii_toLowerCase Login.sample_store Login.sample_verify Login.sample_sign
              1763300000 (Login.login_as "Leser" "guess" (Some true)) in
  r1 = r2
  ∧ Login.response_status r1 = 401 ∧ Login.response_status r2 = 401
  ∧ Login.failure_bytes r1 = Login.failure_bytes r2
  ∧ r1 = Login.LoginFailed 401
           {| Login.error := Errors.InvalidCredentials;
              Login.message := Login.generic_message |}.
Proof.
  apply (login_failures_indistinguishable UserService.ascii_toLowerCase Login.sample_store Login.sample_verify
           Login.sample_sign 1763300000 "nobody" "secret" None "Leser" "guess"
           (Some true)
           {| UserService.username := "leser"; UserService.passwordHash := "h:secret";
              UserService.role := reader; UserService.createdAt := None;
              UserService.displayName := None |}); reflexivity.
Defined.

Lemma login_session_lifetime_witness :
  ∃ token cookie,
    Login.handleLogin UserService.ascii_toLowerCase Login.sample_store Login.sample_verify Login.sample_sign
      1763300000 (Login.login_as "LESER" "secret" (Some true))
    = Login.LoginOk 200 "leser" reader (Login.expiresAt token) token cookie
    ∧ Login.issuedAt token = 1763300000
    ∧ Login.expiresAt token - Login.issuedAt token = 604800
    ∧ Login.MaxAge cookie = Login.expiresAt token - Login.issuedAt token
    ∧ Login.HttpOnly cookie = true ∧ Login.Secure cookie = true
    ∧ Login.SameSite cookie = "Strict".
Proof.
  apply (login_session_lifetime UserService.ascii_toLowerCase Login.sample_store Login.sample_verify
           Login.sample_sign 1763300000 "LESER" "secret" (Some true)
           {| UserService.username := "leser"; UserService.passwordHash := "h:secret";
              UserService.role := reader; UserService.createdAt := None;
              UserService.displayName := None |}); reflexivity.
Defined.

Section Posts_facts.
Import Errors Posts.

Lemma listed_is_visible (store : list BlogPost) caller f p :
  p ∈ posts (listPosts store caller f) →
  p ∈ store ∧ visible caller (filter_status f) p = true.
Proof.
  unfold listPosts. simpl. intros Hin.
  apply subseteq_take, subseteq_drop in Hin.
  rewrite sort_perm in Hin. by apply list_elem_of_filter in Hin as [? ?].
Qed.

Lemma filter_published (store : list BlogPost) :
  filter (λ p, bool_decide (status p = published) = true) store
  = filter (λ p, status p = published) store.
Proof. apply list_filter_iff. intros p. by rewrite bool_decide_eq_true. Qed.

(** A contributor's own posts, newest first. *)
Example listPosts_sample :
  map id (posts (listPosts sample_store {| callerRole := contributor; callerId := "alice" |}
                   {| filter_status := AllStatuses; limit := 10; offset := 0 |}))
  = ["b"; "a"].
Proof. reflexivity. Qed.

(** C3: a listing with status=published holds published posts only, its
    total is the number M of published posts, and a page that has room for
    them holds exactly those M posts; a contributor's listing with
    status=all holds only that contributor's posts; and no listing gives a
    caller a draft of another author. *)
Theorem listPosts_role_gated (store : list BlogPost) caller lim off :
  let published_posts := filter (λ p, status p = published) store in
  let published_page o :=
    listPosts store caller {| filter_status := OnlyPublished; limit := lim; offset := o |} in
  (∀ p, p ∈ posts (published_page off) → status p = published)
  ∧ total (published_page off) = length published_posts
  ∧ ((length published_posts ≤ lim)%nat → posts (published_page 0%nat) ≡ₚ published_posts)
  ∧ (callerRole caller = contributor →
     ∀ p, p ∈ posts (listPosts store caller
                       {| filter_status := AllStatuses; limit := lim; offset := off |}) →
          authorId p = callerId caller)
  ∧ (∀ f p, p ∈ posts (listPosts store caller f) →
            status p = draft → authorId p = callerId caller).
Proof.
  cbv zeta. split_and!.
  - intros p Hin. apply listed_is_visible in Hin as [_ Hv]. simpl in Hv.
    by apply bool_decide_eq_true in Hv.
  - unfold listPosts. simpl. by rewrite filter_published.
  - intros Hroom. unfold listPosts. simpl. rewrite filter_published, drop_0.
    rewrite take_ge; [apply sort_perm|].
    by rewrite (Permutation_length (sort_perm _ _)).
  - intros Hrole p Hin. apply listed_is_visible in Hin as [_ Hv]. simpl in Hv.
    unfold visible in Hv. rewrite Hrole in Hv. by apply bool_decide_eq_true in Hv.
  - intros f p Hin Hdraft. apply listed_is_visible in Hin as [_ Hv].
    unfold visible in Hv.
    destruct (filter_status f), (callerRole caller);
      apply bool_decide_eq_true in Hv; congruence.
Qed.

Lemma listPosts_role_gated_witness :
  posts (listPosts sample_store {| callerRole := reader; callerId := "carol" |}
           {| filter_status := OnlyPublished; limit := 10; offset := 0 |})
  ≡ₚ filter (λ p, status p = published) sample_store.
Proof.
  apply (listPosts_role_gated sample_store {| callerRole := reader; callerId := "carol" |}
           10 0).
  vm_compute. lia.
Defined.

(** C4: a post is handed out with its content exactly when it is
    published or the caller is its author; otherwise the answer is
    NotFound, status 404, and not Forbidden. *)
Theorem getPost_visibility {Content : Type} store (load : BlogPost → Content)
    idOrSlug role caller p :
  lookup_post store idOrSlug = Some p →
  (getPost store load idOrSlug role caller = inr (p, load p)
   ↔ status p = published ∨ caller = authorId p)
  ∧ (¬ (status p = published ∨ caller = authorId p) →
     getPost store load idOrSlug role caller = inl NotFound
     ∧ http_status NotFound = 404
     ∧ getPost store load idOrSlug role caller ≠ inl Forbidden).
Proof.
  intros Hlook. unfold getPost. rewrite Hlook.
  destruct (bool_decide (status p = published) || bool_decide (caller = authorId p))
    eqn:Hvis.
  - apply orb_true_iff in Hvis. rewrite !bool_decide_eq_true in Hvis.
    split; [done|]. intros Hno. by destruct Hno.
  - apply orb_false_iff in Hvis. rewrite !bool_decide_eq_false in Hvis.
    split; [|done]. split; [done|]. intros [?|?]; by destruct Hvis.
Qed.

Lemma getPost_visibility_witness :
  getPost sample_store (λ p, id p) "slug-d" contributor "alice" = inl NotFound
  ∧ http_status NotFound = 404
  ∧ getPost sample_store (λ p, id p) "slug-d" contributor "alice" ≠ inl Forbidden.
Proof.
  apply (getPost_visibility sample_store (λ p, id p) "slug-d" contributor "alice"
           (sample_post "d" "bob" draft 400)).
  - reflexivity.
  - intros [H|H]; discriminate H.
Defined.
End Posts_facts.

Section Reorder_facts.
Import Reorder.

Lemma matches_set_order post e n r : matches post e (set_order n r) = matches post e r.
Proof. reflexivity. Qed.

(** A row answers to one entry only. *)
Lemma matches_same_entry post e1 e2 r :
  matches post e1 r = true → matches post e2 r = true → e1 = e2.
Proof.
  unfold matches. rewrite !andb_true_iff, !bool_decide_eq_true.
  intros [[T1 I1] _] [[T2 I2] _]. destruct e1, e2; simpl in *; congruence.
Qed.

Lemma find_map_stable {A} (P : A → bool) (f : A → A) (l : list A) :
  (∀ x, P (f x) = P x) → find P (map f l) = f <$> find P l.
Proof.
  intros HP. induction l as [|x l IH]; simpl; [done|].
  rewrite HP. by destruct (P x).
Qed.

Lemma existsb_find_some {A} (P : A → bool) (l : list A) :
  existsb P l = true → ∃ x, find P l = Some x ∧ P x = true.
Proof.
  induction l as [|x l IH]; simpl; [done|].
  destruct (P x) eqn:E; [eauto|]. simpl. exact IH.
Qed.

Lemma update_item_rows post e n rows rows' :
  update_item post e n rows = Some rows' →
  existsb (matches post e) rows = true
  ∧ rows' = map (λ r, if matches post e r then set_order n r else r) rows.
Proof.
  unfold update_item. destruct (existsb (matches post e) rows); [|done].
  intros; by simplify_eq.
Qed.

Lemma find_after_update post e e' n rows :
  find (matches post e') (map (λ r, if matches post e r then set_order n r else r) rows)
  = (λ r, if matches post e r then set_order n r else r) <$> find (matches post e') rows.
Proof.
  apply find_map_stable. intros r. by destruct (matches post e r).
Qed.

Lemma update_item_same post e n rows rows' :
  update_item post e n rows = Some rows' → order_of post rows' e = Some n.
Proof.
  intros Hup. apply update_item_rows in Hup as [Hex ->].
  unfold order_of. rewrite find_after_update.
  apply existsb_find_some in Hex as (r & -> & Hr). simpl. by rewrite Hr.
Qed.

Lemma update_item_other post e e' n rows rows' :
  update_item post e n rows = Some rows' → e' ≠ e →
  order_of post rows' e' = order_of post rows e'.
Proof.
  intros Hup Hne. apply update_item_rows in Hup as [_ ->].
  unfold order_of. rewrite find_after_update.
  destruct (find (matches post e') rows) as [r|] eqn:Hfind; simpl; [|done].
  apply find_some in Hfind as [_ Hr].
  destruct (matches post e r) eqn:Hm; [|done].
  destruct Hne. by eapply matches_same_entry.
Qed.

Lemma update_item_still_there post e e' n rows rows' :
  update_item post e n rows = Some rows' →
  existsb (matches post e') rows' = existsb (matches post e') rows.
Proof.
  intros Hup. apply update_item_rows in Hup as [_ ->].
  induction rows as [|r rows IH]; simpl; [done|].
  rewrite IH. by destruct (matches post e r).
Qed.

(** What a run of the item updates that goes through leaves behind. *)
Lemma apply_updates_orders fault post target :
  NoDup target →
  ∀ k rows rows',
    apply_updates fault post target k rows = Some rows' →
    (∀ i e, target !! i = Some e → order_of post rows' e = Some (Z.of_nat (k + i)))
    ∧ (∀ e, e ∉ target → order_of post rows' e = order_of post rows e).
Proof.
  induction 1 as [|e target Hnotin Hnd IH]; intros k rows rows' Hrun; simpl in Hrun.
  - simplify_eq. split; [intros i e Hi; by rewrite lookup_nil in Hi|done].
  - destruct (fault k); [done|].
    destruct (update_item post e (Z.of_nat k) rows) as [rows1|] eqn:Hup; [|done].
    destruct (IH _ _ _ Hrun) as [Hin Hout]. split.
    + intros [|i] e' Hi; simpl in Hi.
      * simplify_eq. rewrite Hout by done. rewrite Nat.add_0_r.
        by eapply update_item_same.
      * rewrite (Hin i e' Hi). do 2 f_equal. lia.
    + intros e' Hnot. apply not_elem_of_cons in Hnot as [Hne Hnot].
      rewrite Hout by done. by eapply update_item_other.
Qed.

(** A fault can only stop a run; it does not change what a run yields. *)
Lemma apply_updates_without_fault fault post target k rows rows' :
  apply_updates fault post target k rows = Some rows' →
  apply_updates no_fault post target k rows = Some rows'.
Proof.
  revert k rows. induction target as [|e target IH]; intros k rows; simpl; [done|].
  destruct (fault k); [done|]. unfold no_fault at 1.
  destruct (update_item post e (Z.of_nat k) rows); [apply IH|done].
Qed.

Lemma apply_updates_goes_through post target k rows :
  (∀ e, e ∈ target → existsb (matches post e) rows = true) →
  is_Some (apply_updates no_fault post target k rows).
Proof.
  revert k rows. induction target as [|e target IH]; intros k rows Hall; simpl;
    [by eexists|].
  unfold no_fault at 1.
  destruct (update_item post e (Z.of_nat k) rows) as [rows1|] eqn:Hup.
  - apply IH. intros e' He'. rewrite (update_item_still_there _ _ _ _ _ _ Hup).
    apply Hall. by right.
  - unfold update_item in Hup. rewrite Hall in Hup; [done|by left].
Qed.

Example reorderContent_sample :
  reorderContent no_fault "post-1" sample_target sample_rows
  = (Reordered,
     [ {| content_type := photo; content_id := "p1"; postId := "post-1"; displayOrder := 2 |};
       {| content_type := photo; content_id := "p2"; postId := "post-1"; displayOrder := 1 |};
       {| content_type := text; content_id := "t1"; postId := "post-1"; displayOrder := 0 |} ]).
Proof. reflexivity. Qed.

(** An item that is not of the post makes the reorder fail. *)
Example reorderContent_unknown_item :
  reorderContent no_fault "post-1"
    [ {| entry_type := text; entry_id := "t1" |}; {| entry_type := video; entry_id := "v9" |} ]
    sample_rows
  = (Failed, sample_rows).
Proof. reflexivity. Qed.

(** C7: a reorder that goes through stores displayOrder values that
    follow the order of the target list; one that fails at any item update
    leaves every row of the store as it was; the store is only ever seen
    as it was before or with the whole target applied; and a target whose
    items all belong to the post does go through when no update fails. *)
Theorem reorder_all_or_nothing fault post target rows :
  NoDup target →
  (∀ rows', reorderContent fault post target rows = (Reordered, rows') →
     ∀ i j e1 e2, target !! i = Some e1 → target !! j = Some e2 → (i < j)%nat →
       ∃ n1 n2, order_of post rows' e1 = Some n1 ∧ order_of post rows' e2 = Some n2
                ∧ n1 < n2)
  ∧ (∀ rows', reorderContent fault post target rows = (Failed, rows') → rows' = rows)
  ∧ (apply_updates fault post target 0 rows = None →
     reorderContent fault post target rows = (Failed, rows))
  ∧ (∀ seen, seen ∈ observable fault post target rows →
       seen = rows ∨ apply_updates no_fault post target 0 rows = Some seen)
  ∧ ((∀ e, e ∈ target → existsb (matches post e) rows = true) →
     ∃ rows', reorderContent no_fault post target rows = (Reordered, rows')).
Proof.
  intros Hnd. unfold observable, reorderContent. split_and!.
  - intros rows' Hrun i j e1 e2 Hi Hj Hlt.
    destruct (apply_updates fault post target 0 rows) as [rows1|] eqn:Hup; [|done].
    simplify_eq.
    destruct (apply_updates_orders fault post target Hnd _ _ _ Hup) as [Hin _].
    exists (Z.of_nat i), (Z.of_nat j).
    rewrite (Hin i e1 Hi), (Hin j e2 Hj). split_and!; [done|done|lia].
  - intros rows'. destruct (apply_updates fault post target 0 rows); intros; by simplify_eq.
  - by intros ->.
  - intros seen Hseen.
    destruct (apply_updates fault post target 0 rows) as [rows1|] eqn:Hup; simpl in Hseen.
    + apply elem_of_cons in Hseen as [->|Hseen]; [by left|].
      apply list_elem_of_singleton in Hseen as ->. right.
      by eapply apply_updates_without_fault.
    + left. apply elem_of_cons in Hseen as [->|Hseen]; [done|].
      by apply list_elem_of_singleton in Hseen.
  - intros Hall.
    destruct (apply_updates_goes_through post target 0%nat rows Hall) as [rows' ->].
    by eexists.
Qed.

Lemma reorder_all_or_nothing_witness :
  reorderContent (fault_at 1) "post-1" sample_target sample_rows = (Failed, sample_rows).
Proof.
  apply (reorder_all_or_nothing (fault_at 1) "post-1" sample_target sample_rows).
  - compute_done.
  - reflexivity.
Defined.
End Reorder_facts.

Section JsString_facts.
Import JsString.

Lemma append_cons c a b : String c a +:+ b = String c (a +:+ b).
Proof. reflexivity. Qed.

Lemma append_nil_l a : "" +:+ a = a.
Proof. reflexivity. Qed.

Lemma append_assoc a b c : (a +:+ b) +:+ c = a +:+ (b +:+ c).
Proof. induction a as [|x a IH]; [done|]. by rewrite !append_cons, IH. Qed.

Lemma split_not_nil sep s : split sep s ≠ [].
Proof.
  destruct s as [|c s]; simpl; [done|].
  destruct (Ascii.eqb c sep); [done|]. by destruct (split sep s).
Qed.

(** A piece without the separator, then the separator, then the rest. *)
Lemma split_app sep a b :
  contains sep a = false → split sep (a +:+ String sep b) = a :: split sep b.
Proof.
  induction a as [|c a IH]; intros Hno.
  - rewrite append_nil_l. simpl. by rewrite Ascii.eqb_refl.
  - simpl in Hno. apply orb_false_iff in Hno as [Hc Hno].
    rewrite append_cons. simpl. rewrite Hc. by rewrite IH.
Qed.

Lemma split_no_sep sep a : contains sep a = false → split sep a = [a].
Proof.
  induction a as [|c a IH]; intros Hno; [done|].
  simpl in Hno. apply orb_false_iff in Hno as [Hc Hno].
  simpl. rewrite Hc. by rewrite IH.
Qed.

Lemma last_part_cons x l : l ≠ [] → last_part (x :: l) = last_part l.
Proof. by destruct l. Qed.

Lemma split_app_tail sep a b :
  ∃ p front, split sep (a +:+ String sep b) = (p :: front) ++ split sep b.
Proof.
  induction a as [|c a (p & front & IH)].
  - exists EmptyString, []. rewrite append_nil_l. simpl. by rewrite Ascii.eqb_refl.
  - rewrite append_cons. simpl. rewrite IH. destruct (Ascii.eqb c sep).
    + by exists EmptyString, (p :: front).
    + by exists (String c p), front.
Qed.

Lemma last_part_app front l : l ≠ [] → last_part (front ++ l) = last_part l.
Proof.
  intros Hl. induction front as [|x front IH]; [done|].
  simpl. rewrite last_part_cons; [done|]. by destruct front, l.
Qed.

(** The last piece of [a/b] is the last piece of [b]. *)
Lemma last_part_split_app sep a b :
  last_part (split sep (a +:+ String sep b)) = last_part (split sep b).
Proof.
  destruct (split_app_tail sep a b) as (p & front & ->).
  apply last_part_app, split_not_nil.
Qed.

Lemma pieces_have_no_sep sep s p : p ∈ split sep s → contains sep p = false.
Proof.
  revert p. induction s as [|c s IH]; intros p Hin; simpl in Hin.
  - apply list_elem_of_singleton in Hin as ->. done.
  - destruct (Ascii.eqb c sep) eqn:Hc.
    + apply elem_of_cons in Hin as [->|Hin]; [done|by apply IH].
    + destruct (split sep s) as [|q qs]; simpl in *.
      * apply list_elem_of_singleton in Hin as ->. simpl. by rewrite Hc.
      * apply elem_of_cons in Hin as [->|Hin].
        -- simpl. rewrite Hc. apply IH. by left.
        -- apply IH. by right.
Qed.

Lemma startsWith_app s p : startsWith (p +:+ s) p = true.
Proof.
  induction p as [|c p IH]; [rewrite append_nil_l; by destruct s|].
  rewrite append_cons. simpl. by rewrite Ascii.eqb_refl.
Qed.

Lemma startsWith_inv s p : startsWith s p = true → ∃ r, s = p +:+ r.
Proof.
  revert s. induction p as [|c p IH]; intros s H; [by exists s|].
  destruct s as [|b s]; [done|]. simpl in H.
  apply andb_true_iff in H as [Hc H]. apply Ascii.eqb_eq in Hc as ->.
  destruct (IH _ H) as [r ->]. by exists r.
Qed.
End JsString_facts.

Section CloudflareImages_facts.
Import JsString CloudflareImages.

Abbreviation file_under :=
  (λ (urls : ImageVariantUrls) variantUrl,
     assign urls (variant_name variantUrl) variantUrl).

(** Where an entry of the object built by the loop comes from. *)
Lemma filed_entry_origin (l : list string) (m : ImageVariantUrls) k v :
  foldl file_under m l !! k = Some v →
  (v ∈ l ∧ k = variant_name v ∧ k ≠ "__proto__") ∨ m !! k = Some v.
Proof.
  revert m. induction l as [|x l IH]; intros m H; simpl in H; [by right|].
  apply IH in H as [(Hin & Hk & Hp)|H]; [left; split; [by right|done]|].
  unfold assign in H. case_bool_decide as Hproto; [by right|].
  destruct (decide (variant_name x = k)) as [<-|Hne].
  - rewrite lookup_insert_eq in H. simplify_eq. left. split; [by left|done].
  - rewrite lookup_insert_ne in H by done. by right.
Qed.

Lemma filed_key_stays (l : list string) (m : ImageVariantUrls) k :
  is_Some (m !! k) → is_Some (foldl file_under m l !! k).
Proof.
  revert m. induction l as [|x l IH]; intros m H; simpl; [done|].
  apply IH. unfold assign. case_bool_decide; [done|].
  destruct (decide (variant_name x = k)) as [<-|Hne].
  - rewrite lookup_insert_eq. by eexists.
  - by rewrite lookup_insert_ne.
Qed.

Lemma filed_other_names (l : list string) (m : ImageVariantUrls) k :
  (∀ w, w ∈ l → variant_name w ≠ k) → foldl file_under m l !! k = m !! k.
Proof.
  revert m. induction l as [|x l IH]; intros m H; simpl; [done|].
  rewrite IH by (intros w Hw; apply H; by right).
  unfold assign. case_bool_decide; [done|].
  apply lookup_insert_ne, H. by left.
Qed.

(** The entry of a name after the loop when the fallback for [public]
    cannot change it. *)
Lemma result_lookup_filed r k u :
  foldl file_under {[ "public" := "" ]} (variants r) !! k = Some u →
  k = variant_name u →
  getVariantUrlsFromResult r !! k = Some u.
Proof.
  intros Hfold Hk. unfold getVariantUrlsFromResult.
  destruct (bool_decide _ && _) eqn:Hcond; [|done].
  apply andb_true_iff in Hcond as [Hpub _]. apply bool_decide_eq_true in Hpub.
  destruct (decide (k = "public")) as [->|Hne].
  - unfold public_of in Hpub. rewrite Hfold in Hpub. simpl in Hpub. subst u. done.
  - by rewrite lookup_insert_ne.
Qed.

(** Where an entry of the returned object comes from. *)
Lemma result_entry_origin r k v :
  getVariantUrlsFromResult r !! k = Some v →
  k ≠ "__proto__"
  ∧ ((v ∈ variants r
      ∧ (k = variant_name v ∨ (k = "public" ∧ head (variants r) = Some v)))
     ∨ (k = "public" ∧ v = "" ∧ variants r = [])).
Proof.
  unfold getVariantUrlsFromResult.
  destruct (bool_decide _ && _) eqn:Hcond.
  - apply andb_true_iff in Hcond as [_ Hlen]. apply Z.ltb_lt in Hlen.
    destruct (variants r) as [|x l] eqn:Hv; [simpl in Hlen; lia|].
    destruct (decide (k = "public")) as [->|Hne].
    + rewrite lookup_insert_eq. simpl. intros [= <-].
      split; [done|]. left. split; [by left|by right].
    + rewrite lookup_insert_ne by done. intros H.
      apply filed_entry_origin in H as [(Hin & Hk & Hp)|H];
        [split; [done|]; by left; split; [|left]|].
      by rewrite lookup_singleton_ne in H.
  - intros H. pose proof H as Hres. apply andb_false_iff in Hcond.
    apply filed_entry_origin in H as [(Hin & Hk & Hp)|H];
      [split; [done|]; by left; split; [|left]|].
    destruct (decide (k = "public")) as [->|Hne];
      [|by rewrite lookup_singleton_ne in H].
    rewrite lookup_singleton_eq in H. simplify_eq.
    split; [done|]. right. split_and!; [done..|].
    destruct Hcond as [Hpub|Hlen].
    + apply bool_decide_eq_false in Hpub. unfold public_of in Hpub.
      rewrite Hres in Hpub. done.
    + apply Z.ltb_ge in Hlen. destruct (variants r); [done|simpl in Hlen; lia].
Qed.

(** X1: every entry of the object returned for an upload result holds one
    of the result's variant URLs, filed under the last path segment of
    that URL or, for the first variant only, under "public"; the one
    exception is the "public" entry of a result without variants, which
    is the empty string; nothing is filed under "__proto__", and every
    entry other than "public" is named after its own URL. *)
Theorem variant_urls_come_from_variants r k v :
  getVariantUrlsFromResult r !! k = Some v →
  k ≠ "__proto__"
  ∧ ((v ∈ variants r
      ∧ (k = variant_name v ∨ (k = "public" ∧ head (variants r) = Some v)))
     ∨ (k = "public" ∧ v = "" ∧ variants r = []))
  ∧ (k ≠ "public" → v ∈ variants r ∧ k = variant_name v).
Proof.
  intros H. destruct (result_entry_origin r k v H) as [Hproto Horigin].
  split; [done|]. split; [done|]. intros Hk.
  destruct Horigin as [[Hin [Hname|[Hpub _]]]|[Hpub _]]; done.
Qed.

Lemma variant_urls_come_from_variants_witness :
  "thumbnail" ≠ "__proto__"
  ∧ (("https://imagedelivery.net/hash/img-1/thumbnail" ∈ variants sample_upload
      ∧ ("thumbnail" = variant_name "https://imagedelivery.net/hash/img-1/thumbnail"
         ∨ ("thumbnail" = "public"
            ∧ head (variants sample_upload)
              = Some "https://imagedelivery.net/hash/img-1/thumbnail")))
     ∨ ("thumbnail" = "public" ∧ "https://imagedelivery.net/hash/img-1/thumbnail" = ""
        ∧ variants sample_upload = []))
  ∧ ("thumbnail" ≠ "public" →
     "https://imagedelivery.net/hash/img-1/thumbnail" ∈ variants sample_upload
     ∧ "thumbnail" = variant_name "https://imagedelivery.net/hash/img-1/thumbnail").
Proof.
  apply (variant_urls_come_from_variants sample_upload "thumbnail"
           "https://imagedelivery.net/hash/img-1/thumbnail").
  vm_compute. reflexivity.
Defined.

(** A result whose first variant is the empty string keeps an empty
    "public" entry, and a URL that ends in /__proto__ is not filed. *)
Example variant_urls_edge_cases :
  getVariantUrlsFromResult
    {| image_id := "i"; filename := "f"; uploaded := "u"; requireSignedURLs := false;
       variants := [""; "https://a/x/thumb"] |} !! "public" = Some ""
  ∧ getVariantUrlsFromResult
      {| image_id := "i"; filename := "f"; uploaded := "u"; requireSignedURLs := false;
         variants := ["https://a/x/__proto__"] |}
    = {[ "public" := "https://a/x/__proto__" ]}.
Proof. split; vm_compute; reflexivity. Qed.

(** X2: the returned object always has a "public" entry, and for a
    result with at least one variant and no empty URL that entry is a
    non-empty URL of the result. *)
Theorem variant_urls_public_present r :
  is_Some (getVariantUrlsFromResult r !! "public")
  ∧ (variants r ≠ [] → "" ∉ variants r →
     ∃ v, getVariantUrlsFromResult r !! "public" = Some v ∧ v ≠ "" ∧ v ∈ variants r).
Proof.
  assert (is_Some (getVariantUrlsFromResult r !! "public")) as Hsome.
  { unfold getVariantUrlsFromResult. destruct (bool_decide _ && _).
    - rewrite lookup_insert_eq. by eexists.
    - apply filed_key_stays. by rewrite lookup_singleton_eq. }
  split; [done|]. intros Hne Hnoempty. destruct Hsome as [v Hv]. exists v.
  split; [done|].
  apply result_entry_origin in Hv as [_ [[Hin _]|(_ & _ & Hnil)]]; [|done].
  split; [|done]. by intros ->.
Qed.

Lemma variant_urls_public_present_witness :
  ∃ v, getVariantUrlsFromResult sample_upload !! "public" = Some v ∧ v ≠ ""
       ∧ v ∈ variants sample_upload.
Proof.
  apply (variant_urls_public_present sample_upload).
  - done.
  - vm_compute. intros H. repeat (apply elem_of_cons in H as [H|H]; [discriminate H|]).
    by apply elem_of_nil in H.
Defined.

(** X3: of several variant URLs with the same last segment the last one
    in the array is the one kept: a URL that no later variant shares its
    name with is the entry of that name, unless the name is "__proto__",
    under which the object never holds an entry. *)
Theorem variant_urls_last_wins r before u after :
  variants r = before ++ u :: after →
  (∀ w, w ∈ after → variant_name w ≠ variant_name u) →
  (variant_name u ≠ "__proto__" →
   getVariantUrlsFromResult r !! variant_name u = Some u)
  ∧ getVariantUrlsFromResult r !! "__proto__" = None.
Proof.
  intros Hv Hafter. split.
  - intros Hproto. apply result_lookup_filed; [|done].
    rewrite Hv, foldl_app. simpl.
    rewrite filed_other_names by done.
    unfold assign. rewrite bool_decide_eq_false_2 by done. apply lookup_insert_eq.
  - destruct (getVariantUrlsFromResult r !! "__proto__") as [v|] eqn:Hlook; [|done].
    by apply result_entry_origin in Hlook as [? _].
Qed.

Lemma variant_urls_last_wins_witness :
  (variant_name "https://b/y/public" ≠ "__proto__" →
   getVariantUrlsFromResult
     {| image_id := "i"; filename := "f"; uploaded := "u"; requireSignedURLs := false;
        variants := ["https://a/x/public"; "https://b/y/public"; "https://b/y/thumb"] |}
     !! variant_name "https://b/y/public" = Some "https://b/y/public")
  ∧ getVariantUrlsFromResult
      {| image_id := "i"; filename := "f"; uploaded := "u"; requireSignedURLs := false;
         variants := ["https://a/x/public"; "https://b/y/public"; "https://b/y/thumb"] |}
    !! "__proto__" = None.
Proof.
  apply (variant_urls_last_wins _ ["https://a/x/public"] "https://b/y/public"
           ["https://b/y/thumb"]).
  - reflexivity.
  - intros w Hw. apply list_elem_of_singleton in Hw as ->. vm_compute. discriminate.
Defined.

Lemma variant_name_of_delivery_url base n :
  contains "/" n = false → variant_name (base +:+ "/" +:+ n) = n.
Proof.
  intros Hn. unfold variant_name.
  change ("/" +:+ n) with (String "/" n).
  rewrite last_part_split_app, split_no_sep by done. done.
Qed.

Lemma append_inj_r a b c : a +:+ b = a +:+ c → b = c.
Proof.
  induction a as [|x a IH]; [done|]. rewrite !append_cons. intros [= H]. auto.
Qed.

(** X4: for an upload result whose variants are the delivery URLs
    base/name of some variant names, none with a slash and none of them
    "__proto__", each URL is filed under its name; the "public" entry is
    then the one that [getVariantUrls] constructs for the image. *)
Theorem variant_urls_round_trip config imageId r names :
  variants r = map (λ n, baseDeliveryUrl config imageId +:+ "/" +:+ n) names →
  (∀ n, n ∈ names → contains "/" n = false ∧ n ≠ "__proto__") →
  (∀ n, n ∈ names →
        getVariantUrlsFromResult r !! n
        = Some (baseDeliveryUrl config imageId +:+ "/" +:+ n))
  ∧ ("public" ∈ names →
     getVariantUrlsFromResult r !! "public" = getVariantUrls config imageId !! "public").
Proof.
  intros Hv Hnames.
  assert (∀ n, n ∈ names →
            getVariantUrlsFromResult r !! n
            = Some (baseDeliveryUrl config imageId +:+ "/" +:+ n)) as Hall.
  { intros n Hn. set (base := baseDeliveryUrl config imageId) in *.
    apply result_lookup_filed;
      [|rewrite variant_name_of_delivery_url; [done|by apply Hnames]].
    rewrite Hv. clear Hv. generalize ({[ "public" := "" ]} : ImageVariantUrls).
    induction names as [|x names IH]; intros m; [by apply elem_of_nil in Hn|].
    simpl. destruct (decide (n ∈ names)) as [Hin|Hnotin].
    - apply IH; [|done]. intros y Hy. apply Hnames. by right.
    - apply elem_of_cons in Hn as [->|Hn]; [|done].
      destruct (Hnames x) as [Hslash Hproto]; [by left|].
      rewrite filed_other_names.
      + rewrite variant_name_of_delivery_url by done.
        unfold assign. rewrite bool_decide_eq_false_2 by done.
        apply lookup_insert_eq.
      + intros w Hw. apply list_elem_of_fmap in Hw as (y & -> & Hy).
        rewrite variant_name_of_delivery_url by (apply Hnames; by right).
        by intros ->. }
  split; [done|]. intros Hpub. rewrite (Hall _ Hpub).
  unfold getVariantUrls. by rewrite lookup_singleton_eq.
Qed.

Lemma variant_urls_round_trip_witness :
  getVariantUrlsFromResult sample_upload !! "public"
  = getVariantUrls sample_config "img-1" !! "public".
Proof.
  apply (variant_urls_round_trip sample_config "img-1" sample_upload
           ["thumbnail"; "public"]).
  - reflexivity.
  - intros n Hn. apply elem_of_cons in Hn as [->|Hn]; [by split|].
    apply list_elem_of_singleton in Hn as ->. by split.
  - set_solver.
Defined.

(** X5: an image passes [validateImage] exactly when its size is at most
    the limit in bytes (maxSizeMB * 1024 * 1024, 10 MB when the limit is
    left out) and, if it is a File, its type is one of the five supported
    ones; the size is tested first, and a passing image carries no error
    message. *)
Theorem validateImage_accepts file maxSizeMB :
  (valid (validateImage file maxSizeMB) = true
   ↔ size file ≤ default 10 maxSizeMB * 1048576
     ∧ (is_File file = false ∨ type file ∈ validTypes))
  ∧ (default 10 maxSizeMB * 1048576 < size file →
     validateImage file maxSizeMB
     = {| valid := false;
          error := Some ("File size exceeds " +:+ pretty (default 10 maxSizeMB)
                         +:+ "MB limit") |})
  ∧ (valid (validateImage file maxSizeMB) = true
     ↔ error (validateImage file maxSizeMB) = None).
Proof.
  unfold validateImage.
  destruct (Z.ltb_spec (default 10 maxSizeMB * 1024 * 1024) (size file)) as [Hbig|Hok];
    simpl.
  - split_and!.
    + split; [done|]. intros [? _]. lia.
    + done.
    + by split.
  - destruct (is_File file) eqn:HF; simpl.
    + case_bool_decide as Hty; simpl.
      * split_and!.
        -- split; [intros _; split; [lia|by right]|done].
        -- intros; lia.
        -- by split.
      * split_and!.
        -- split; [done|]. intros [_ [?|?]]; done.
        -- intros; lia.
        -- by split.
    + split_and!.
      * split; [intros _; split; [lia|by left]|done].
      * intros; lia.
      * by split.
Qed.

(** A Blob of an unsupported type passes, a File of that type does not. *)
Example validateImage_blob_and_file :
  valid (validateImage {| size := 100; is_File := false; type := "text/plain" |} None) = true
  ∧ validateImage {| size := 100; is_File := true; type := "text/plain" |} None
    = {| valid := false;
         error := Some "Invalid file type. Supported: JPEG, PNG, WebP, GIF, HEIC" |}
  ∧ validateImage {| size := 10485761; is_File := true; type := "text/plain" |} None
    = {| valid := false; error := Some "File size exceeds 10MB limit" |}
  ∧ valid (validateImage {| size := 10485760; is_File := true; type := "image/png" |} None)
    = true.
Proof. repeat split; reflexivity. Qed.
End CloudflareImages_facts.

Section UserService_more.
Import UserService.
Variable toLowerCase : string → string.

(** X6: the lookup returns a user exactly when that user is the first in
    the array whose username has the lower-case form of the name asked
    for (so of two users whose names differ only in case the later one is
    never found), and it returns null exactly when no stored username has
    that lower-case form. *)
Theorem findUserByUsername_first_match (users : list User) s :
  (∀ u, findUserByUsername toLowerCase users s = Some u
        ↔ ∃ before after, users = before ++ u :: after
                          ∧ toLowerCase (username u) = toLowerCase s
                          ∧ ∀ w, w ∈ before → toLowerCase (username w) ≠ toLowerCase s)
  ∧ (findUserByUsername toLowerCase users s = None
     ↔ ∀ w, w ∈ users → toLowerCase (username w) ≠ toLowerCase s).
Proof.
  unfold findUserByUsername. split.
  - intros u. rewrite find_first.
    split; intros (before & after & -> & Hu & Hb); exists before, after.
    + split_and!; [done|by apply bool_decide_eq_true in Hu|].
      intros w Hw Heq. specialize (Hb w Hw). by apply bool_decide_eq_false in Hb.
    + split_and!; [done|by apply bool_decide_eq_true|].
      intros w Hw. apply bool_decide_eq_false_2. by apply Hb.
  - rewrite find_none. split; intros H w Hw.
    + intros Heq. specialize (H w Hw). by apply bool_decide_eq_false in H.
    + apply bool_decide_eq_false_2. by apply H.
Qed.

(** X7: [userExists] holds exactly when some stored username has the
    lower-case form of the name, and it gives the same answer for every
    two names with one lower-case form. *)
Theorem userExists_up_to_case (users : list User) s :
  (userExists toLowerCase users s = true
   ↔ ∃ u, u ∈ users ∧ toLowerCase (username u) = toLowerCase s)
  ∧ (∀ s', toLowerCase s = toLowerCase s' →
           userExists toLowerCase users s' = userExists toLowerCase users s).
Proof.
  split.
  - unfold userExists. rewrite bool_decide_eq_true. split.
    + intros Hne.
      destruct (findUserByUsername toLowerCase users s) as [u|] eqn:Hfind; [|done].
      apply lookup_some_iff in Hfind as (before & after & -> & Hu & _).
      exists u. split; [|done]. apply elem_of_app. right. by left.
    + intros (u & Hin & Hu) Hnone.
      rewrite lookup_none_iff in Hnone. by apply (Hnone u).
  - intros s' Hcase. unfold userExists, findUserByUsername. by rewrite Hcase.
Qed.
End UserService_more.

Section CreateText_more.
Import Errors CreateText.

(** X8: a request is served exactly when it names a post, carries a
    non-empty string as content, the post exists, the session subject is
    its author, and the three statements it runs (the lookup of the
    author, the INSERT and the UPDATE) do not throw; the role of the user
    plays no part, and neither does the query for the largest
    display_order, which is never sent. *)
Theorem createText_succeeds_iff faults request user db params uuid now :
  (∃ r db', createText faults request user db params uuid now = (inr r, db'))
  ↔ (∃ pid text order post,
       well_formed request params pid text order
       ∧ select_post db pid = Some post ∧ author_id post = sub user)
    ∧ database_works faults.
Proof.
  split.
  - intros (r & db' & Hrun).
    destruct (createText_write_inv faults request user db params uuid now)
      as (pid & text & order & post & Hwf & Hpost & Hauthor & Hs & Hi).
    { right. exists r. by rewrite Hrun. }
    split; [by exists pid, text, order, post|].
    split_and!; [done..|].
    unfold createText in Hrun.
    rewrite (createText_try_well_formed _ _ _ _ _ _ _ _ _ _ Hwf) in Hrun.
    rewrite Hs, Hpost, Hi, bool_decide_eq_true_2 in Hrun by done. simpl in Hrun.
    by destruct (faults UpdatePost).
  - intros ((pid & text & order & post & Hwf & Hpost & Hauthor) & Hworks).
    eexists _, _. by eapply createText_success.
Qed.

(** A reader who is the author of the post is served. *)
Example createText_serves_reader_author :
  canModify {| sub := "alice"; role := reader |}
            {| row_id := "post-1"; author_id := "alice";
               updated_at := "2025-11-16T10:00:00.000Z" |} = false
  ∧ ∃ r db', createText working (sample_request Undefined)
               {| sub := "alice"; role := reader |} sample_db None "uuid-1" "now"
             = (inr r, db').
Proof. split; [reflexivity|]. by eexists _, _. Qed.

(** X9: a served request appends exactly one row to text_content (with
    the generated id, the post, the content, section "main" and the time
    of the call), keeps every other text row, keeps the number, ids and
    authors of the posts, stamps updated_at of the post with the time of
    the call and leaves the rows of all other posts untouched. *)
Theorem createText_success_effect faults request user db params uuid now r db' :
  createText faults request user db params uuid now = (inr r, db') →
  ∃ pid row,
    text_content db' = text_content db ++ [row]
    ∧ text_row_id row = uuid ∧ post_id row = pid ∧ section_name row = "main"
    ∧ created_at row = now ∧ createdAt r = now
    ∧ text_row_content row = created_content r
    ∧ display_order row = created_displayOrder r
    ∧ map row_id (blog_posts db') = map row_id (blog_posts db)
    ∧ map author_id (blog_posts db') = map author_id (blog_posts db)
    ∧ (∀ i p, blog_posts db !! i = Some p → row_id p ≠ pid →
              blog_posts db' !! i = Some p)
    ∧ (∀ p, p ∈ blog_posts db' → row_id p = pid → updated_at p = now).
Proof.
  intros Hrun.
  destruct (createText_write_inv faults request user db params uuid now)
    as (pid & text & order & post & Hwf & Hpost & Hauthor & Hs & Hi).
  { right. exists r. by rewrite Hrun. }
  unfold createText in Hrun.
  rewrite (createText_try_well_formed _ _ _ _ _ _ _ _ _ _ Hwf) in Hrun.
  rewrite Hs, Hpost, Hi, bool_decide_eq_true_2 in Hrun by done. simpl in Hrun.
  destruct (faults UpdatePost); [done|].
  simplify_eq. exists pid, (created_row uuid now pid text order).
  split_and!; try done; simpl.
  - rewrite <- list_fmap_compose. apply list_fmap_ext. intros i p _. simpl.
    by case_bool_decide.
  - rewrite <- list_fmap_compose. apply list_fmap_ext. intros i p _. simpl.
    by case_bool_decide.
  - intros i p Hi' Hne. rewrite list_lookup_fmap, Hi'. simpl.
    by rewrite bool_decide_eq_false_2.
  - intros p Hin Hp. apply list_elem_of_fmap in Hin as (q & -> & _).
    case_bool_decide; simpl in *; [done|congruence].
Qed.

Lemma createText_success_effect_witness :
  ∃ pid row,
    text_content
      (snd (createText working (sample_request Undefined) alice sample_db None
              "uuid-1" "now"))
    = text_content sample_db ++ [row]
    ∧ text_row_id row = "uuid-1" ∧ post_id row = pid ∧ section_name row = "main"
    ∧ created_at row = "now" ∧ "now" = "now"
    ∧ text_row_content row = "Day two"
    ∧ display_order row = 0
    ∧ map row_id (blog_posts
        (snd (createText working (sample_request Undefined) alice sample_db None
                "uuid-1" "now")))
      = map row_id (blog_posts sample_db)
    ∧ map author_id (blog_posts
        (snd (createText working (sample_request Undefined) alice sample_db None
                "uuid-1" "now")))
      = map author_id (blog_posts sample_db)
    ∧ (∀ i p, blog_posts sample_db !! i = Some p → row_id p ≠ pid →
              blog_posts
                (snd (createText working (sample_request Undefined) alice sample_db None
                        "uuid-1" "now")) !! i = Some p)
    ∧ (∀ p, p ∈ blog_posts
                  (snd (createText working (sample_request Undefined) alice sample_db
                          None "uuid-1" "now")) →
            row_id p = pid → updated_at p = "now").
Proof.
  apply (createText_success_effect working (sample_request Undefined) alice sample_db
           None "uuid-1" "now"
           {| textId := "uuid-1"; created_content := "Day two";
              created_displayOrder := 0; createdAt := "now"; response_status := 201 |}).
  reflexivity.
Defined.

(** X10: whatever goes wrong, the handler raises one of its four error
    classes and never lets another thrown value through; a ServerError
    always carries the fixed message, not the message of what was
    thrown. *)
Theorem createText_error_classes faults request user db params uuid now e db' :
  createText faults request user db params uuid now = (inl e, db') →
  (∀ m, e ≠ Thrown m)
  ∧ (∀ m, e = ServerError m → m = "Failed to create text block").
Proof.
  unfold createText.
  destruct (createText_try faults request user db params uuid now) as [[e'|r] d];
    [|intros; by simplify_eq].
  intros [= <- _]. split; intros m; destruct e'; simpl; congruence.
Qed.

Lemma createText_error_classes_witness :
  (∀ m, ServerError "Failed to create text block" ≠ Thrown m)
  ∧ (∀ m, ServerError "Failed to create text block" = ServerError m →
          m = "Failed to create text block").
Proof.
  apply (createText_error_classes (failing_at InsertText "D1_ERROR: disk full")
           (sample_request Undefined) alice sample_db None "uuid-1" "now"
           (ServerError "Failed to create text block") sample_db).
  reflexivity.
Defined.

(** X11: the checks come in a fixed order: a request without a post id is
    answered NotFound whatever its body; with a post id, a body that fails
    to parse raises what the parser raised (through the catch block); and
    content that is not a non-empty string is a ValidationError before the
    database is read, whoever asks and whether or not the post exists. *)
Theorem createText_check_order faults request user db params uuid now :
  let routed := match request_params request with Some p => Some p | None => params end in
  ((routed = Some {| postId := None |} ∨ routed = Some {| postId := Some "" |}) →
   createText faults request user db params uuid now
   = (inl (NotFoundError "Post not found"), db))
  ∧ (∀ pid e, routed = Some {| postId := Some pid |} → pid ≠ "" →
       parsed_body request = inl e →
       createText faults request user db params uuid now = (inl (createText_catch e), db))
  ∧ (∀ pid body, routed = Some {| postId := Some pid |} → pid ≠ "" →
       parsed_body request = inr body →
       (∀ text, content body = JStr text → text = "") →
       createText faults request user db params uuid now
       = (inl (ValidationError "content is required and must be a string"), db)).
Proof.
  cbv zeta. unfold createText, createText_try. split_and!.
  - intros [-> | ->]; done.
  - intros pid e -> Hpid ->. simpl. by rewrite bool_decide_eq_false_2.
  - intros pid body -> Hpid -> Hbad. simpl. rewrite bool_decide_eq_false_2 by done.
    destruct (content body) as [| |b|n|text] eqn:Hc; simpl; try done.
    + by rewrite orb_true_r.
    + by rewrite orb_true_r.
    + by rewrite (Hbad text).
Qed.

Lemma select_post_after_create db row now pid pid0 post :
  select_post db pid0 = Some post →
  ∃ post', select_post (touch_post (insert_text db row) now pid) pid0 = Some post'
           ∧ author_id post' = author_id post.
Proof.
  unfold select_post. simpl. intros Hsel.
  rewrite (find_map_stable (λ r, bool_decide (row_id r = pid0))).
  - rewrite Hsel. simpl. eexists. split; [done|].
    by destruct (bool_decide (row_id post = pid)).
  - intros p. by destruct (bool_decide (row_id p = pid)).
Qed.

(** X12: after a served request the same user's next request for the
    post is served as well, and when both leave displayOrder out the two
    new text blocks both get displayOrder 0. *)
Theorem createText_twice_without_order faults1 faults2 request1 request2 user db params
    uuid1 now1 uuid2 now2 pid text1 text2 order1 order2 post :
  database_works faults1 → database_works faults2 →
  well_formed request1 params pid text1 order1 →
  well_formed request2 params pid text2 order2 →
  nullish order1 = true → nullish order2 = true →
  select_post db pid = Some post →
  author_id post = sub user →
  ∃ r1 db1 r2 db2,
    createText faults1 request1 user db params uuid1 now1 = (inr r1, db1)
    ∧ createText faults2 request2 user db1 params uuid2 now2 = (inr r2, db2)
    ∧ created_displayOrder r1 = 0 ∧ created_displayOrder r2 = 0
    ∧ map display_order (text_content db2)
      = map display_order (text_content db) ++ [0; 0].
Proof.
  intros Hw1 Hw2 Hwf1 Hwf2 Hn1 Hn2 Hpost Hauthor.
  pose proof (createText_success _ _ _ _ _ uuid1 now1 _ _ _ _ Hwf1 Hpost Hauthor Hw1)
    as Hrun1.
  destruct (select_post_after_create db (created_row uuid1 now1 pid text1 order1)
              now1 pid pid post Hpost) as (post' & Hpost' & Hauthor').
  rewrite Hauthor in Hauthor'.
  pose proof (createText_success _ _ _ _ _ uuid2 now2 _ _ _ _ Hwf2 Hpost' Hauthor' Hw2)
    as Hrun2.
  eexists _, _, _, _. split; [exact Hrun1|]. split; [exact Hrun2|].
  destruct order1, order2; try done; simpl;
    (split_and!; [done..|]); rewrite !fmap_app; simpl; by rewrite <- app_assoc.
Qed.

Lemma createText_twice_without_order_witness :
  ∃ r1 db1 r2 db2,
    createText working (sample_request Undefined) alice sample_db None "uuid-1" "t1"
    = (inr r1, db1)
    ∧ createText working (sample_request Null) alice db1 None "uuid-2" "t2" = (inr r2, db2)
    ∧ created_displayOrder r1 = 0 ∧ created_displayOrder r2 = 0
    ∧ map display_order (text_content db2)
      = map display_order (text_content sample_db) ++ [0; 0].
Proof.
  apply (createText_twice_without_order working working (sample_request Undefined)
           (sample_request Null)
           alice sample_db None "uuid-1" "t1" "uuid-2" "t2" "post-1" "Day two" "Day two"
           Undefined Null
           {| row_id := "post-1"; author_id := "alice";
              updated_at := "2025-11-16T10:00:00.000Z" |});
    try reflexivity; repeat split; done.
Defined.

(** X13: a displayOrder given in the request is stored and answered as it
    is, also when a text block of the post already carries that value:
    when the database statements do not throw the answer is 201 with that
    displayOrder, and whatever the database does, the display orders
    stored afterwards are the old ones or the old ones and the requested
    one. *)
Theorem createText_keeps_requested_order faults request user db params uuid now
    pid text n post :
  well_formed request params pid text (Num n) →
  select_post db pid = Some post →
  author_id post = sub user →
  (database_works faults →
   ∃ db', createText faults request user db params uuid now
          = (inr {| textId := uuid; created_content := text; created_displayOrder := n;
                    createdAt := now; response_status := 201 |}, db')
          ∧ map display_order (text_content db')
            = map display_order (text_content db) ++ [n])
  ∧ (map display_order
       (text_content (snd (createText faults request user db params uuid now)))
     = map display_order (text_content db)
     ∨ map display_order
         (text_content (snd (createText faults request user db params uuid now)))
       = map display_order (text_content db) ++ [n]).
Proof.
  intros Hwf Hpost Hauthor. split.
  - intros Hworks.
    rewrite (createText_success _ _ _ _ _ uuid now _ _ _ _ Hwf Hpost Hauthor Hworks).
    eexists. split; [reflexivity|]. simpl. by rewrite fmap_app.
  - destruct (createText_rows_after faults _ _ _ _ uuid now _ _ _ _ Hwf Hpost Hauthor)
      as [-> | ->]; [by left|right]. by rewrite fmap_app.
Qed.

Lemma createText_keeps_requested_order_witness :
  (database_works working →
   ∃ db', createText working (sample_request (Num 4)) alice sample_db None "uuid-1" "now"
          = (inr {| textId := "uuid-1"; created_content := "Day two";
                    created_displayOrder := 4; createdAt := "now";
                    response_status := 201 |}, db')
          ∧ map display_order (text_content db')
            = map display_order (text_content sample_db) ++ [4])
  ∧ (map display_order
       (text_content (snd (createText working (sample_request (Num 4)) alice sample_db
                             None "uuid-1" "now")))
     = map display_order (text_content sample_db)
     ∨ map display_order
         (text_content (snd (createText working (sample_request (Num 4)) alice sample_db
                               None "uuid-1" "now")))
       = map display_order (text_content sample_db) ++ [4]).
Proof.
  apply (createText_keeps_requested_order working (sample_request (Num 4)) alice
           sample_db None "uuid-1" "now" "post-1" "Day two" 4
           {| row_id := "post-1"; author_id := "alice";
              updated_at := "2025-11-16T10:00:00.000Z" |});
    try reflexivity; repeat split; done.
Defined.
End CreateText_more.

Section NotFoundFunction_facts.
Import JsString NotFoundFunction.

Lemma append_nil_r a : a +:+ "" = a.
Proof. induction a as [|c a IH]; [done|]. by rewrite append_cons, IH. Qed.

(** X14: the 404 function answers 200 exactly for the paths /blog/x with
    a non-empty x, and then with the body and headers of the blog page
    whatever status the asset fetch had; every other path, /blog/ itself
    included, gets the 404 "Not Found" in plain text. *)
Theorem onRequest_serves_blog_paths pathname assets :
  (status (onRequest pathname assets) = 200
   ↔ ∃ rest, rest ≠ "" ∧ pathname = "/blog/" +:+ rest)
  ∧ (status (onRequest pathname assets) = 200 →
     body (onRequest pathname assets) = body (assets "/blog")
     ∧ headers (onRequest pathname assets) = headers (assets "/blog"))
  ∧ (status (onRequest pathname assets) ≠ 200 →
     onRequest pathname assets
     = {| status := 404; body := "Not Found";
          headers := [("content-type", "text/plain;charset=UTF-8")] |}).
Proof.
  unfold onRequest.
  destruct (startsWith pathname "/blog/" && negb (bool_decide (pathname = "/blog/")))
    eqn:Hcond; simpl.
  - split_and!; [|done|done]. split; [intros _|done].
    apply andb_true_iff in Hcond as [Hpre Hne].
    apply startsWith_inv in Hpre as [rest ->]. exists rest. split; [|done].
    intros ->. apply negb_true_iff, bool_decide_eq_false in Hne. by apply Hne.
  - split_and!; [|done|done]. split; [done|]. intros (rest & Hrest & ->).
    apply andb_false_iff in Hcond as [Hpre|Hne].
    + by rewrite startsWith_app in Hpre.
    + apply negb_false_iff, bool_decide_eq_true in Hne.
      destruct Hrest. apply (append_inj_r "/blog/"). by rewrite append_nil_r.
Qed.

Example onRequest_samples :
  status (onRequest "/blog/my-trip" sample_assets) = 200
  ∧ status (onRequest "/blog/" sample_assets) = 404
  ∧ status (onRequest "/blog" sample_assets) = 404
  ∧ status (onRequest "/posts/manage" sample_assets) = 404.
Proof. repeat split; reflexivity. Qed.
End NotFoundFunction_facts.

Section BlogPage_facts.
Import BlogPage.

(** X15: for a list of total >= 0 posts, the pages that show at least one
    post are exactly the pages 1 .. totalPages: the offset of page p >= 1
    lies below total if and only if p <= totalPages; an empty list has no
    page. *)
Theorem pages_cover_the_list total p :
  0 ≤ total → 1 ≤ p →
  (page_offset p < total ↔ p ≤ totalPages total)
  ∧ 0 ≤ page_offset p
  ∧ (total = 0 → totalPages total = 0)
  ∧ total ≤ totalPages total * POSTS_PER_PAGE < total + POSTS_PER_PAGE.
Proof.
  intros Htotal Hp. unfold page_offset, totalPages, POSTS_PER_PAGE.
  pose proof (Z.div_mod (- total) 12 ltac:(lia)) as Hdm.
  pose proof (Z.mod_pos_bound (- total) 12 ltac:(lia)) as Hmod.
  split_and!; lia.
Qed.

Lemma pages_cover_the_list_witness :
  (page_offset 3 < 25 ↔ 3 ≤ totalPages 25)
  ∧ 0 ≤ page_offset 3
  ∧ (25 = 0 → totalPages 25 = 0)
  ∧ 25 ≤ totalPages 25 * POSTS_PER_PAGE < 25 + POSTS_PER_PAGE.
Proof. apply (pages_cover_the_list 25 3); lia. Defined.
End BlogPage_facts.

Section PostDetail_facts.
Import PostDetail.

Lemma loadPosts_snoc results result :
  loadPosts (results ++ [result]) = loadPost (postData (loadPosts results)) result.
Proof. unfold loadPosts. by rewrite foldl_app. Qed.

Lemma fetchPostBySlug_data result data :
  fetchPostBySlug result = inr data →
  ∃ status, result = Answer status data ∧ ok status = true
            ∧ truthy (data_error data) = false.
Proof.
  destruct result as [st d|reason]; simpl; [|done].
  destruct (ok st) eqn:Hok; simpl; [|by destruct (st =? 404)].
  destruct (truthy (data_error d)) eqn:Herr; simpl; [done|].
  intros [= <-]. by exists st.
Qed.

(** The post data held after any sequence of loads. *)
Lemma loadPosts_held results data :
  postData (loadPosts results) = Some data →
  post_status data = "published"
  ∧ ∃ status, Answer status data ∈ results ∧ ok status = true
              ∧ truthy (data_error data) = false.
Proof.
  induction results as [|result results IH] using rev_ind; [done|].
  rewrite loadPosts_snoc. unfold loadPost.
  assert (postData (loadPosts results) = Some data →
          post_status data = "published"
          ∧ ∃ status, Answer status data ∈ results ++ [result] ∧ ok status = true
                      ∧ truthy (data_error data) = false) as Hold.
  { intros H. destruct (IH H) as (Hpub & st & Hin & Hok & Herr).
    split; [done|]. exists st. split; [|done]. apply elem_of_app. by left. }
  destruct (fetchPostBySlug result) as [reason|d] eqn:Hfetch; simpl; [done|].
  case_bool_decide as Hpub; simpl; [|done].
  intros [= <-]. split; [done|].
  apply fetchPostBySlug_data in Hfetch as (st & -> & Hok & Herr).
  exists st. split; [|done]. apply elem_of_app. right. by left.
Qed.

(** X16: through any sequence of loads the detail page only ever renders
    a post that the worker delivered with a 2xx status and no error field
    and whose status is "published"; a failed fetch, a 404 included,
    shows the one message "Failed to load blog post"; a post of another
    status redirects to /blog and leaves the post data held before in
    place. *)
Theorem PostDetail_renders_published_only :
  (∀ results data, render (loadPosts results) = Rendered data →
     post_status data = "published"
     ∧ ∃ status, Answer status data ∈ results ∧ ok status = true
                 ∧ truthy (data_error data) = false)
  ∧ (∀ previous result reason, fetchPostBySlug result = inl reason →
       render (loadPost previous result) = PostNotFound "Failed to load blog post")
  ∧ (∀ previous result data, fetchPostBySlug result = inr data →
       post_status data ≠ "published" →
       pushed (loadPost previous result) = Some "/blog"
       ∧ postData (loadPost previous result) = previous).
Proof.
  split_and!.
  - intros results data Hrender. apply loadPosts_held.
    unfold render in Hrender. destruct (isLoading _); [done|].
    destruct (postData (loadPosts results)) as [d|]; [|done].
    destruct (truthy _); by simplify_eq.
  - intros previous result reason Hfetch. unfold loadPost. rewrite Hfetch.
    unfold render. simpl. by destruct previous.
  - intros previous result data Hfetch Hpub. unfold loadPost. rewrite Hfetch.
    by rewrite bool_decide_eq_false_2.
Qed.

(** After a published post, a draft leaves that post on the page. *)
Example PostDetail_stale_post :
  let published_post := {| data_error := None; data_message := None;
                           post_status := "published"; post_slug := "a" |} in
  let draft_post := {| data_error := None; data_message := None;
                       post_status := "draft"; post_slug := "b" |} in
  render (loadPosts [Answer 200 published_post; Answer 200 draft_post])
  = Rendered published_post.
Proof. reflexivity. Qed.

Example PostDetail_not_found_message :
  fetchPostBySlug
    (Answer 404 {| data_error := Some "Not Found"; data_message := Some "gone";
                   post_status := ""; post_slug := "" |}) = inl "Post not found"
  ∧ fetchPostBySlug
      (Answer 500 {| data_error := None; data_message := None;
                     post_status := ""; post_slug := "" |})
    = inl "Failed to fetch post: 500".
Proof. split; reflexivity. Qed.
End PostDetail_facts.

Section ManagePosts_facts.
Import JsString ManagePosts.

Lemma contains_app c a b : contains c (a +:+ b) = contains c a || contains c b.
Proof.
  induction a as [|x a IH]; [done|].
  rewrite append_cons. simpl. by rewrite IH, orb_assoc.
Qed.

(** The pieces of a string hold no character that the string does not. *)
Lemma pieces_keep_absent ch sep s p :
  contains ch s = false → p ∈ split sep s → contains ch p = false.
Proof.
  revert p. induction s as [|c s IH]; intros p Hno Hin; simpl in Hin.
  - by apply list_elem_of_singleton in Hin as ->.
  - simpl in Hno. apply orb_false_iff in Hno as [Hc Hno].
    destruct (Ascii.eqb c sep).
    + apply elem_of_cons in Hin as [->|Hin]; [done|by apply IH].
    + destruct (split sep s) as [|q qs]; simpl in *.
      * apply list_elem_of_singleton in Hin as ->. simpl. by rewrite Hc.
      * apply elem_of_cons in Hin as [->|Hin].
        -- simpl. rewrite Hc. apply IH; [done|by left].
        -- apply IH; [done|by right].
Qed.

Lemma split_prefix sep x y :
  contains sep x = false →
  ∃ p ps, split sep y = p :: ps ∧ split sep (x +:+ y) = (x +:+ p) :: ps.
Proof.
  intros Hx. destruct (split sep y) as [|p ps] eqn:Hy; [by destruct (split_not_nil sep y)|].
  exists p, ps. split; [done|].
  induction x as [|c x IH]; [by rewrite !append_nil_l|].
  simpl in Hx. apply orb_false_iff in Hx as [Hc Hx].
  rewrite !append_cons. simpl. rewrite Hc. by rewrite IH.
Qed.

Lemma trimEnd_cons c s : is_space c = false → trimEnd (String c s) = String c (trimEnd s).
Proof. intros Hc. simpl. rewrite Hc. by destruct (trimEnd s). Qed.

Lemma trim_session r : trim ("session=" +:+ r) = "session=" +:+ trimEnd r.
Proof.
  unfold trim. change ("session=" +:+ r)
    with (String "s" (String "e" (String "s" (String "s" (String "i" (String "o"
           (String "n" (String "=" r)))))))).
  cbn [trimStart]. change (is_space "s") with false. cbv iota.
  by rewrite !trimEnd_cons.
Qed.

Lemma session_piece_found r rest :
  find (λ c, startsWith (trim c) "session=") (("session=" +:+ r) :: rest)
  = Some ("session=" +:+ r).
Proof. simpl. by rewrite trim_session, startsWith_app. Qed.

(** X17: without a stored token the token comes from the cookies and
    holds neither "=" nor ";"; a stored token that is not empty is
    returned as it is, whatever the cookies hold, and outside a browser
    there is no token. *)
Theorem getSessionToken_shape storedToken document_cookie :
  (∀ tok, getSessionToken true None document_cookie = Some tok →
          contains "=" tok = false ∧ contains ";" tok = false)
  ∧ (∀ t, t ≠ "" → getSessionToken true (Some t) document_cookie = Some t)
  ∧ getSessionToken true (Some "") document_cookie
    = getSessionToken true None document_cookie
  ∧ getSessionToken false storedToken document_cookie = None.
Proof.
  split_and!;
    [|intros t Ht; unfold getSessionToken; cbn [negb];
      by rewrite bool_decide_eq_false_2|done|done].
  intros tok. unfold getSessionToken, token_from_cookie. simpl.
  destruct (find _ (split ";" document_cookie)) as [c|] eqn:Hfind; [|done].
  intros Htok. apply find_some in Hfind as [Hin _].
  apply list_elem_of_In in Hin. apply list_elem_of_lookup_2 in Htok. split.
  - by eapply pieces_have_no_sep.
  - eapply pieces_keep_absent; [|exact Htok]. by eapply pieces_have_no_sep.
Qed.

(** X18: from a cookie string that begins with session=a, where a holds
    neither "=" nor ";", and then ends or goes on with "=" or ";", the
    token read is a: the value comes back whole when it has no "=" and
    is cut at its first "=" when it has one. *)
Theorem getSessionToken_reads_session_cookie a tail :
  contains "=" a = false → contains ";" a = false →
  (tail = "" ∨ (∃ t, tail = String "=" t) ∨ (∃ t, tail = String ";" t)) →
  getSessionToken true None ("session=" +:+ a +:+ tail) = Some a.
Proof.
  intros Heq Hsemi Htail. unfold getSessionToken, token_from_cookie.
  cbn [negb]. cbv zeta.
  assert (contains ";" ("session=" +:+ a) = false) as Hhead
    by (by rewrite contains_app, Hsemi).
  destruct Htail as [->|[[t ->]|[t ->]]].
  - rewrite append_nil_r, (split_no_sep ";") by done.
    rewrite session_piece_found.
    change ("session=" +:+ a) with ("session" +:+ String "=" a).
    rewrite split_app by done. by rewrite (split_no_sep "=").
  - destruct (split_prefix ";" ("session=" +:+ a +:+ "=") t) as (p & ps & Hp & Hsplit).
    { by rewrite <- append_assoc, contains_app, Hhead. }
    replace ("session=" +:+ a +:+ String "=" t) with (("session=" +:+ a +:+ "=") +:+ t)
      by (by rewrite !append_assoc).
    rewrite Hsplit.
    replace (("session=" +:+ a +:+ "=") +:+ p) with ("session=" +:+ (a +:+ String "=" p))
      by (by rewrite !append_assoc).
    rewrite session_piece_found.
    change ("session=" +:+ (a +:+ String "=" p))
      with ("session" +:+ String "=" (a +:+ String "=" p)).
    rewrite split_app by done. by rewrite split_app.
  - rewrite <- append_assoc, split_app by done.
    rewrite session_piece_found.
    change ("session=" +:+ a) with ("session" +:+ String "=" a).
    rewrite split_app by done. by rewrite (split_no_sep "=").
Qed.

Lemma getSessionToken_reads_session_cookie_witness :
  getSessionToken true None ("session=" +:+ "eyJhbGciOi.e30.c2ln" +:+ "==; theme=dark")
  = Some "eyJhbGciOi.e30.c2ln".
Proof.
  apply (getSessionToken_reads_session_cookie "eyJhbGciOi.e30.c2ln" "==; theme=dark").
  - reflexivity.
  - reflexivity.
  - right. left. by eexists.
Defined.

(** A session cookie that is not the first one is found as well. *)
Example getSessionToken_second_cookie :
  getSessionToken true None "theme=dark; session=abc.def" = Some "abc.def".
Proof. reflexivity. Qed.
End ManagePosts_facts.

Section Renderer_more.
Import JsSort Renderer.

Abbreviation sorted_items := (sort (by_key displayOrder)).

(** Inserting moves an element only past elements with a smaller key. *)
Lemma insert_sorted_same_key {A} (key : A → Z) (k : Z) x l :
  filter (λ y, key y = k) (insert_sorted (by_key key) x l)
  = filter (λ y, key y = k) (x :: l).
Proof.
  induction l as [|y l IH]; simpl; [done|].
  unfold by_key at 1. destruct (Z.leb_spec (key x - key y) 0) as [Hle|Hgt]; [done|].
  rewrite filter_cons, IH, !filter_cons.
  destruct (decide (key y = k)), (decide (key x = k)); try done. lia.
Qed.

Lemma sort_same_key {A} (key : A → Z) (k : Z) l :
  filter (λ y, key y = k) (sort (by_key key) l) = filter (λ y, key y = k) l.
Proof.
  induction l as [|x l IH]; simpl; [done|].
  by rewrite insert_sorted_same_key, !filter_cons, IH.
Qed.

(** X19: items of one collection that share a displayOrder are rendered
    in the order they have in the input array: for every key k, the
    rendered photos with displayOrder k are the input photos with
    displayOrder k in their input order, and so for videos and text
    blocks. *)
Theorem rendering_keeps_ties_in_order templates post c (σ : heap) ps vs ts k :
  templates !! post_templateId post = None →
  σ !! photos c = Some ps → σ !! videos c = Some vs → σ !! textBlocks c = Some ts →
  ∃ sp sv st σ',
    PostRenderer templates post c σ = Some (sp ++ sv ++ st, σ')
    ∧ filter (λ i, displayOrder i = k) sp = filter (λ i, displayOrder i = k) ps
    ∧ filter (λ i, displayOrder i = k) sv = filter (λ i, displayOrder i = k) vs
    ∧ filter (λ i, displayOrder i = k) st = filter (λ i, displayOrder i = k) ts.
Proof.
  intros Hnone Hp Hv Ht.
  destruct (PostRenderer_default_run templates post c σ ps vs ts Hnone Hp Hv Ht)
    as (σ' & R & _).
  exists (sorted_items ps), (sorted_items vs), (sorted_items ts), σ'.
  split; [exact R|]. split_and!; apply sort_same_key.
Qed.

Lemma rendering_keeps_ties_in_order_witness :
  ∃ sp sv st σ',
    PostRenderer ∅ sample_post sample_content sample_heap = Some (sp ++ sv ++ st, σ')
    ∧ filter (λ i, displayOrder i = 2) sp
      = filter (λ i, displayOrder i = 2) [sample_photo 2; sample_photo 0]
    ∧ filter (λ i, displayOrder i = 2) sv = filter (λ i, displayOrder i = 2) []
    ∧ filter (λ i, displayOrder i = 2) st
      = filter (λ i, displayOrder i = 2) [sample_text 1].
Proof.
  apply (rendering_keeps_ties_in_order ∅ sample_post sample_content sample_heap);
    reflexivity.
Defined.

(** X20: with the default template, going through [PostRenderer] shows
    the same sequence as [DefaultTemplate] on its own: sorting the sorted
    copies once more changes nothing. *)
Theorem PostRenderer_agrees_with_DefaultTemplate templates post c (σ : heap) ps vs ts :
  templates !! post_templateId post = None →
  σ !! photos c = Some ps → σ !! videos c = Some vs → σ !! textBlocks c = Some ts →
  ∃ out σ1 σ2,
    PostRenderer templates post c σ = Some (out, σ1)
    ∧ DefaultTemplate post c σ = Some (out, σ2)
    ∧ out ≡ₚ ps ++ vs ++ ts.
Proof.
  intros Hnone Hp Hv Ht.
  destruct (PostRenderer_default_run templates post c σ ps vs ts Hnone Hp Hv Ht)
    as (σ1 & R1 & _).
  destruct (DefaultTemplate_run post c σ ps vs ts Hp Hv Ht) as (σ2 & R2 & _).
  eexists _, σ1, σ2. split; [exact R1|]. split; [exact R2|].
  by rewrite !sort_perm.
Qed.

Lemma PostRenderer_agrees_with_DefaultTemplate_witness :
  ∃ out σ1 σ2,
    PostRenderer ∅ sample_post sample_content sample_heap = Some (out, σ1)
    ∧ DefaultTemplate sample_post sample_content sample_heap = Some (out, σ2)
    ∧ out ≡ₚ [sample_photo 2; sample_photo 0] ++ [] ++ [sample_text 1].
Proof.
  apply (PostRenderer_agrees_with_DefaultTemplate ∅ sample_post sample_content
           sample_heap); reflexivity.
Defined.

(** X21: a registered template is called with three arrays that did not
    exist before the call (so none of them is an input array), each
    holding the items of the matching input array in ascending order of
    displayOrder, on a heap in which every earlier array is as it was. *)
Theorem PostRenderer_hands_sorted_copies (templates : gmap string Template) post c
    (σ : heap) ps vs ts (T : Template) :
  templates !! post_templateId post = Some T →
  σ !! photos c = Some ps → σ !! videos c = Some vs → σ !! textBlocks c = Some ts →
  ∃ c' σ' sp sv st,
    PostRenderer templates post c σ = T post c' σ'
    ∧ σ ⊆ σ'
    ∧ σ !! photos c' = None ∧ σ !! videos c' = None ∧ σ !! textBlocks c' = None
    ∧ σ' !! photos c' = Some sp ∧ σ' !! videos c' = Some sv
    ∧ σ' !! textBlocks c' = Some st
    ∧ sp ≡ₚ ps ∧ sv ≡ₚ vs ∧ st ≡ₚ ts
    ∧ ascending sp ∧ ascending sv ∧ ascending st.
Proof.
  intros HT Hp Hv Ht.
  destruct (three_copies_run c σ ps vs ts Hp Hv Ht)
    as (p & v & t & σ1 & σ2 & σ3 & R1 & R2 & R3 & Hsub & Fp & Fv & Ft & Lp & Lv & Lt).
  exists {| photos := p; videos := v; textBlocks := t |}, σ3,
    (sorted_items ps), (sorted_items vs), (sorted_items ts).
  split; [unfold PostRenderer, bind; by rewrite R1, R2, R3, HT|].
  split_and!; try done; try apply sort_perm; apply sort_sorted.
Qed.

Lemma PostRenderer_hands_sorted_copies_witness :
  ∃ c' σ' sp sv st,
    PostRenderer {[ "none" := DefaultTemplate ]} sample_post sample_content sample_heap
    = DefaultTemplate sample_post c' σ'
    ∧ sample_heap ⊆ σ'
    ∧ sample_heap !! photos c' = None ∧ sample_heap !! videos c' = None
    ∧ sample_heap !! textBlocks c' = None
    ∧ σ' !! photos c' = Some sp ∧ σ' !! videos c' = Some sv
    ∧ σ' !! textBlocks c' = Some st
    ∧ sp ≡ₚ [sample_photo 2; sample_photo 0] ∧ sv ≡ₚ [] ∧ st ≡ₚ [sample_text 1]
    ∧ ascending sp ∧ ascending sv ∧ ascending st.
Proof.
  apply (PostRenderer_hands_sorted_copies {[ "none" := DefaultTemplate ]} sample_post
           sample_content sample_heap); reflexivity.
Defined.
End Renderer_more.

Section Routing_facts.
Import JsString Routing.

Lemma path_segments_posts rest :
  path_segments ("/api/posts/" +:+ rest)
  = Some (strip_trailing_empty ("api" :: "posts" :: split "/" rest)).
Proof.
  unfold path_segments.
  change ("/api/posts/" +:+ rest)
    with ("" +:+ String "/" ("api" +:+ String "/" ("posts" +:+ String "/" rest))).
  by rewrite !split_app.
Qed.

Lemma startsWith_nil s : startsWith s "" = true.
Proof. by destruct s. Qed.

Ltac run_router table :=
  unfold handle, table, match_route, match_pattern, route;
  cbn [route_method route_pattern route_handler].

(** X22: in the posts router a GET of /api/posts/x reaches getPost with
    postId x for every single segment x ("create" and "slug" included),
    while POST /api/posts/x/text, the route of the create-text handler,
    and GET /api/posts/slug/x, the path the client asks for a post by
    slug, match no route but the final 404. *)
Theorem posts_router_unrouted_paths pid :
  pid ≠ "" → contains "/" pid = false →
  handle posts_routes "POST" ("/api/posts/" +:+ pid +:+ "/text") = Some (postsNotFound, [])
  ∧ handle posts_routes "GET" ("/api/posts/slug/" +:+ pid) = Some (postsNotFound, [])
  ∧ handle posts_routes "GET" ("/api/posts/" +:+ pid) = Some (getPost, [("postId", pid)]).
Proof.
  intros Hne Hpid.
  assert (path_segments ("/api/posts/" +:+ pid +:+ "/text")
          = Some ["api"; "posts"; pid; "text"]) as H1.
  { rewrite path_segments_posts. change ("/text") with (String "/" "text").
    rewrite split_app by done. reflexivity. }
  assert (path_segments ("/api/posts/" +:+ ("slug/" +:+ pid))
          = Some ["api"; "posts"; "slug"; pid]) as H2.
  { change ("slug/" +:+ pid) with ("slug" +:+ String "/" pid).
    rewrite path_segments_posts, split_app by done. rewrite split_no_sep by done.
    simpl. by rewrite bool_decide_eq_false_2. }
  assert (path_segments ("/api/posts/" +:+ pid) = Some ["api"; "posts"; pid]) as H3.
  { rewrite path_segments_posts, split_no_sep by done.
    simpl. by rewrite bool_decide_eq_false_2. }
  assert (∀ rest, startsWith ("/api/posts/" +:+ rest) "/api/posts" = true) as W.
  { intros rest. change ("/api/posts/" +:+ rest) with ("/api/posts" +:+ String "/" rest).
    apply startsWith_app. }
  split_and!.
  - run_router posts_routes. rewrite H1, W. simpl.
    repeat case_bool_decide; simplify_eq; done.
  - run_router posts_routes.
    change ("/api/posts/slug/" +:+ pid) with ("/api/posts/" +:+ ("slug/" +:+ pid)).
    rewrite H2, W. simpl.
    repeat case_bool_decide; simplify_eq; done.
  - run_router posts_routes. rewrite H3. simpl.
    repeat case_bool_decide; simplify_eq; done.
Qed.

Lemma posts_router_unrouted_paths_witness :
  handle posts_routes "POST" ("/api/posts/" +:+ "42" +:+ "/text") = Some (postsNotFound, [])
  ∧ handle posts_routes "GET" ("/api/posts/slug/" +:+ "42") = Some (postsNotFound, [])
  ∧ handle posts_routes "GET" ("/api/posts/" +:+ "42") = Some (getPost, [("postId", "42")]).
Proof. apply (posts_router_unrouted_paths "42"); [done|reflexivity]. Defined.

Example posts_router_samples :
  handle posts_routes "POST" "/api/posts/create" = Some (createPost, [])
  ∧ handle posts_routes "GET" "/api/posts/" = Some (listPosts, [])
  ∧ handle posts_routes "PUT" "/api/posts/7/photos/9"
    = Some (updatePhoto, [("postId", "7"); ("photoId", "9")])
  ∧ handle posts_routes "POST" "/api/posts/7/reorder/" = Some (reorderContent, [("postId", "7")])
  ∧ handle posts_routes "GET" "/other" = None.
Proof. repeat split; reflexivity. Qed.

(** X23: the auth router calls the login handler exactly for a POST of
    /api/auth/login (slashes at the end allowed); every request reaches
    some handler, and an OPTIONS request always reaches the CORS preflight
    handler. *)
Theorem auth_router_dispatch method pathname :
  (fst <$> handle auth_routes method pathname = Some handleLogin
   ↔ method = "POST" ∧ path_segments pathname = Some ["api"; "auth"; "login"])
  ∧ is_Some (handle auth_routes method pathname)
  ∧ (method = "OPTIONS" →
     handle auth_routes method pathname = Some (handleCORSPreflight, [])).
Proof.
  run_router auth_routes. rewrite !startsWith_nil.
  destruct (path_segments pathname) as [[|a [|b [|c [|d segs]]]]|]; simpl;
    repeat case_bool_decide; simplify_eq; simpl;
    (split_and!; [split; [try done|intros [? ?]; by simplify_eq]
                 |by eexists|intros ?; by simplify_eq]).
Qed.

Lemma split_single sep s p : split sep s = [p] → s = p.
Proof.
  revert p. induction s as [|c s IH]; intros p; simpl; [by intros [= <-]|].
  destruct (Ascii.eqb c sep).
  - intros [= <- H]. by destruct (split_not_nil sep s).
  - destruct (split sep s) as [|q qs] eqn:E; [by destruct (split_not_nil sep s)|].
    intros [= <- ->]. by rewrite (IH q).
Qed.

Lemma split_cons_inv sep s p q rest :
  split sep s = p :: q :: rest →
  ∃ s', s = p +:+ String sep s' ∧ split sep s' = q :: rest.
Proof.
  revert p. induction s as [|c s IH]; intros p; simpl; [done|].
  destruct (Ascii.eqb c sep) eqn:Hc.
  - apply Ascii.eqb_eq in Hc as ->. intros [= <- H]. by exists s.
  - destruct (split sep s) as [|p1 ps] eqn:E; [done|].
    intros [= <- ->]. destruct (IH p1 eq_refl) as (s' & -> & Hs'). by exists s'.
Qed.

Lemma split_head sep s p rest : split sep s = p :: rest → ∃ tail, s = p +:+ tail.
Proof.
  destruct rest as [|q rest]; intros H.
  - apply split_single in H as ->. exists "". by rewrite append_nil_r.
  - apply split_cons_inv in H as (s' & -> & _). by eexists.
Qed.

Lemma strip_trailing_two l a b t :
  strip_trailing_empty l = a :: b :: t → ∃ l', l = a :: b :: l'.
Proof.
  destruct l as [|x [|y l]]; simpl; [done| |].
  - by case_bool_decide.
  - destruct (strip_trailing_empty l) as [|z zs].
    + case_bool_decide; [by case_bool_decide|]. intros [= <- <- _]. by eexists.
    + intros [= <- <- _]. by eexists.
Qed.

(** A pathname whose first two segments are api and media starts with
    /api/media. *)
Lemma under_media_base pathname rest :
  path_segments pathname = Some ("api" :: "media" :: rest) →
  startsWith pathname "/api/media" = true.
Proof.
  unfold path_segments.
  destruct (split "/" pathname) as [|[|] l] eqn:Hsplit; try done.
  intros [= Hstrip]. apply strip_trailing_two in Hstrip as [l' ->].
  apply split_cons_inv in Hsplit as (s1 & -> & Hsplit).
  apply split_cons_inv in Hsplit as (s2 & -> & Hsplit).
  apply split_head in Hsplit as [tail ->].
  change ("" +:+ String "/" ("api" +:+ String "/" ("media" +:+ tail)))
    with ("/api/media" +:+ tail).
  apply startsWith_app.
Qed.

(** X24: the two versions of the media router choose the same handler
    for every request under /api/media other than the health check, which
    only the second version has; for a pathname outside /api/media the
    first version matches no route while the second answers its 404. *)
Theorem media_routers_agree method pathname :
  (startsWith pathname "/api/media" = true →
   ¬ (method = "GET" ∧ path_segments pathname = Some ["api"; "media"; "health"]) →
   handle media_routes_with_base method pathname = handle media_routes method pathname)
  ∧ (startsWith pathname "/api/media" = false →
     handle media_routes_with_base method pathname = None
     ∧ handle media_routes method pathname = Some (mediaNotFound, []))
  ∧ (method = "GET" → path_segments pathname = Some ["api"; "media"; "health"] →
     handle media_routes_with_base method pathname = Some (mediaNotFound, [])
     ∧ handle media_routes method pathname = Some (mediaHealth, [])).
Proof.
  split_and!.
  - intros Hbase Hhealth. run_router media_routes_with_base. run_router media_routes.
    rewrite Hbase, startsWith_nil.
    destruct (path_segments pathname) as [[|a [|b [|c [|d segs]]]]|]; simpl;
      repeat case_bool_decide; simplify_eq; simpl; try done.
    destruct Hhealth. by split.
  - intros Hbase. run_router media_routes_with_base. run_router media_routes.
    rewrite Hbase, startsWith_nil.
    destruct (path_segments pathname) as [[|a [|b [|c [|d segs]]]]|] eqn:Hseg; simpl;
      repeat case_bool_decide; simplify_eq; simpl; try done;
      apply under_media_base in Hseg; congruence.
  - intros -> Hseg. pose proof (under_media_base _ _ Hseg) as Hbase.
    run_router media_routes_with_base. run_router media_routes.
    rewrite Hseg, Hbase. done.
Qed.

Lemma media_routers_agree_witness :
  handle media_routes_with_base "POST" "/api/media/upload-photo"
  = handle media_routes "POST" "/api/media/upload-photo".
Proof.
  apply (media_routers_agree "POST" "/api/media/upload-photo").
  - reflexivity.
  - intros [H _]. discriminate H.
Defined.
End Routing_facts.
